(** * sort_kiwix_library.py: sorting a Kiwix library catalog and verifying it

    A shallow embedding of [sort_library_by_path] and [verify_book_ids].

    - A Python [str] is a sequence of code points: [list N].
    - An [xml.etree.ElementTree.Element] is a record with an object
      identity; [Element.remove] compares by identity.
    - The file system and the XML library ([ET.parse], [ElementTree.write],
      [open(...).read()]) are parameters of the development: the program
      only reacts to what they return or raise.
    - [print] appends a message to a log. *)

From Stdlib Require Import Ascii String.
From stdpp Require Import gmap list sorting lexico.

#[local] Set Warnings "-clear-no-such-hyp".

Open Scope N_scope.
Open Scope nat_scope.

(** ** Strings *)

Abbreviation str := (list N).

(** An ASCII literal as a sequence of code points. *)
Definition s (lit : string) : str :=
  (λ c, N_of_ascii c) <$> list_ascii_of_string lit.

(** The double quote character. *)
Definition dquote : N := 34%N.

(** Python's [<] on [str]: the first differing code point decides, and a
    proper prefix is smaller. *)
Fixpoint str_ltb (a b : str) : bool :=
  match a, b with
  | [], [] => false
  | [], _ :: _ => true
  | _ :: _, [] => false
  | x :: a', y :: b' =>
      if (x <? y)%N then true
      else if (x =? y)%N then str_ltb a' b'
      else false
  end.

(** [a <= b] as [not (b < a)]. *)
Definition str_leb (a b : str) : bool := negb (str_ltb b a).

Definition str_le (a b : str) : Prop := str_leb a b = true.

(** ** Elements *)

(** [Element]: [eid] is the identity of the Python object; the other fields
    are the attributes of [xml.etree.ElementTree.Element]. *)
#[local] Unset Elimination Schemes.
Inductive Element : Type := mkElement {
  eid : nat;
  tag : str;
  attrib : gmap str str;
  text : option str;
  tail : option str;
  children : list Element
}.
#[local] Set Elimination Schemes.

(** [elem.get(key, default)]: the attribute's value, or [default] when the
    attribute is absent. *)
Definition get (e : Element) (key dflt : str) : str :=
  default dflt (attrib e !! key).

(** [root.findall('book')]: the direct children whose tag is the given
    name, in document order. *)
Definition findall (name : str) (root : Element) : list Element :=
  filter (λ c, tag c = name) (children root).

(** ** The builtin [sorted]

    [sorted(xs, key=f)] is a stable ascending sort that compares keys with
    [<] only.  It is modelled as a stable insertion sort: an element is put
    before the first element of the sorted rest whose key is not smaller
    than its own. *)
Section sorted.
Context {A : Type} (key : A → str).

Fixpoint insert_by (x : A) (l : list A) : list A :=
  match l with
  | [] => [x]
  | y :: l' =>
      if str_ltb (key y) (key x) then y :: insert_by x l' else x :: y :: l'
  end.

Fixpoint sorted (l : list A) : list A :=
  match l with
  | [] => []
  | x :: l' => insert_by x (sorted l')
  end.
End sorted.

(** ** Exceptions and results *)

(** The exceptions the program distinguishes, all subclasses of
    [Exception]: [FileNotFoundError] carries its [filename] attribute, the
    others the text they format to. *)
Inductive exn : Type :=
  | FileNotFoundError (filename : str)
  | ParseError (msg : str)
  | ValueError (msg : str)
  | OtherError (msg : str).

Inductive result (A : Type) : Type :=
  | Ok (v : A)
  | Raise (e : exn).
Arguments Ok {A} v.
Arguments Raise {A} e.

(** Sequencing inside a [try] block: the first exception ends the block. *)
Global Instance result_bind : MBind result := λ A B k r,
  match r with
  | Ok v => k v
  | Raise e => Raise e
  end.

(** ** Mutating the root's child list *)

(** [list.remove] behind [root.remove(book)]: drop the first child that is
    the same object; [ValueError] when there is none. *)
Fixpoint remove_child (b : Element) (cs : list Element) : result (list Element) :=
  match cs with
  | [] => Raise (ValueError (s "list.remove(x): x not in list"))
  | c :: cs' =>
      if decide (eid c = eid b) then Ok cs'
      else cs'' ← remove_child b cs'; Ok (c :: cs'')
  end.

Definition set_children (root : Element) (cs : list Element) : Element :=
  {| eid := eid root; tag := tag root; attrib := attrib root;
     text := text root; tail := tail root; children := cs |}.

(** [root.remove(book)] *)
Definition remove (root book : Element) : result Element :=
  cs ← remove_child book (children root); Ok (set_children root cs).

(** [root.append(book)] *)
Definition append (root book : Element) : Element :=
  set_children root (children root ++ [book]).

(** [for book in books: root.remove(book)] *)
Fixpoint remove_each (root : Element) (books : list Element) : result Element :=
  match books with
  | [] => Ok root
  | b :: books' => root' ← remove root b; remove_each root' books'
  end.

(** [for book in sorted_books: root.append(book)] *)
Fixpoint append_each (root : Element) (books : list Element) : Element :=
  match books with
  | [] => root
  | b :: books' => append_each (append root b) books'
  end.

(** The sort key of line 36: [book.get('path', '')]. *)
Definition path_key (book : Element) : str := get book (s "path") [].

(** The in-memory part of [sort_library_by_path], lines 31 to 44: from the
    parsed root to the root that is written. *)
Definition reorder (root : Element) : result Element :=
  let books := findall (s "book") root in
  let sorted_books := sorted path_key books in
  root' ← remove_each root books;
  Ok (append_each root' sorted_books).

(** ** Text search *)

(** [after_prefix p t]: what follows [p] when [t] starts with [p]. *)
Fixpoint after_prefix (p t : str) : option str :=
  match p, t with
  | [], _ => Some t
  | _ :: _, [] => None
  | a :: p', b :: t' => if (a =? b)%N then after_prefix p' t' else None
  end.

(** The fixed part of the pattern of line 83: [book id=] and a quote. *)
Definition book_id_prefix : str := s "book id=" ++ [dquote].

(** The rest of the pattern: a run of characters other than the quote up
    to the first quote.  The run is greedy and the quote has to follow it,
    so it is the whole run before that quote.  Gives the run and the text
    after the closing quote. *)
Fixpoint quoted_run (t : str) : option (str * str) :=
  match t with
  | [] => None
  | c :: t' =>
      if (c =? dquote)%N then Some ([], t')
      else '(v, rest) ← quoted_run t'; Some (c :: v, rest)
  end.

(** One attempt of the whole pattern of line 83 at the start of [t]: the
    fixed part, then a run of at least one character closed by a quote.
    Gives the group and the text after the match. *)
Definition match_book_id (t : str) : option (str * str) :=
  t1 ← after_prefix book_id_prefix t;
  '(v, rest) ← quoted_run t1;
  if decide (v = []) then None else Some (v, rest).

(** The scan of [re.findall]: try the pattern at the current position;
    after a match go on behind it, otherwise one character further. *)
Fixpoint findall_scan (fuel : nat) (t : str) : list str :=
  match fuel with
  | 0 => []
  | S fuel' =>
      match match_book_id t with
      | Some (v, rest) => v :: findall_scan fuel' rest
      | None =>
          match t with
          | [] => []
          | _ :: t' => findall_scan fuel' t'
          end
      end
  end.

(** [re.findall] with the pattern of line 83 on [content]; a match is never
    empty, so the scan needs at most one step per character and one more. *)
Definition findall_book_ids (content : str) : list str :=
  findall_scan (S (length content)) content.

(** [needle in hay] on [str]. *)
Fixpoint contains (needle hay : str) : bool :=
  match after_prefix needle hay with
  | Some _ => true
  | None =>
      match hay with
      | [] => false
      | _ :: hay' => contains needle hay'
      end
  end.

(** The f-string of line 112: [id=], a quote, the id, a quote. *)
Definition search_pattern (book_id : str) : str :=
  s "id=" ++ [dquote] ++ book_id ++ [dquote].

(** ** [collections.Counter] *)

(** A [Counter] is a dict, which keeps its keys in the order of their
    first insertion: an association list. *)
Fixpoint count_add (x : str) (d : list (str * nat)) : list (str * nat) :=
  match d with
  | [] => [(x, 1)]
  | (y, n) :: d' =>
      if decide (y = x) then (y, S n) :: d' else (y, n) :: count_add x d'
  end.

(** [Counter(items)] *)
Definition Counter (items : list str) : list (str * nat) :=
  foldl (λ d x, count_add x d) [] items.

(** [{item: count for item, count in counts.items() if count > 1}] *)
Definition duplicates_of (counts : list (str * nat)) : list (str * nat) :=
  filter (λ ic, 1 < ic.2) counts.

(** ** Console messages *)

(** One constructor per [print] call of the program, with the values its
    format string interpolates. *)
Inductive message : Type :=
  | MsgSorted (input_filepath output_filepath : str)
  | MsgInputNotFound (input_filepath : str)
  | MsgParseError (input_filepath e : str)
  | MsgSortUnexpected (e : str)
  | MsgVerifyStart
  | MsgNoBookIds
  | MsgDuplicateWarning (input_filepath : str)
  | MsgDuplicateHeader
  | MsgDuplicateItem (item : str) (count : nat)
  | MsgFoundUnique (n : nat) (input_filepath : str)
  | MsgVerifySuccess (n : nat) (output_filepath : str)
  | MsgVerifyFailed (n : nat)
  | MsgMissingHeader
  | MsgMissingItem (mid : str)
  | MsgVerifyFileNotFound (filename : str)
  | MsgVerifyUnexpected (e : str).

(** [str(e)], what [{e}] puts in a message. *)
Definition exn_text (e : exn) : str :=
  match e with
  | FileNotFoundError f =>
      s "[Errno 2] No such file or directory: '" ++ f ++ s "'"
  | ParseError m | ValueError m | OtherError m => m
  end.

(** ** The program

    The file system is a state [FS] that only the three library calls
    touch.  What they do is not fixed here: every result below holds for
    all of their behaviours. *)

(** What [open(path, 'r', encoding='utf-8')] followed by [f.read()] can
    do: give the text, find no file, or fail in another way (permissions,
    undecodable bytes, ...). *)
Inductive read_outcome : Type :=
  | Content (c : str)
  | NotFound
  | Failed (msg : str).

Section program.
Context {FS : Type}.

(** [ET.parse(path)]: the root of the parsed tree; [FileNotFoundError],
    [ParseError] or another exception otherwise.  It leaves the file
    system as it is. *)
Variable ET_parse : FS → str → result Element.

(** [ElementTree(root).write(path, encoding='utf-8',
    xml_declaration=True)]: the file system afterwards, and the
    exception if the call raised one. *)
Variable ET_write : FS → Element → str → FS * option exn.

(** The two lines under each [with open(...)] of [verify_book_ids]. *)
Variable read_file : FS → str → read_outcome.

(** The state a call runs in: the files and what was printed so far. *)
Record world : Type := World { files : FS; console : list message }.

(** A computation that may change the world and either gives a value or
    raises. *)
Definition io (A : Type) : Type := world → world * result A.

#[local] Instance io_ret : MRet io := λ A v w, (w, Ok v).

#[local] Instance io_bind : MBind io := λ A B k m w,
  match m w with
  | (w', Ok v) => k v w'
  | (w', Raise e) => (w', Raise e)
  end.

(** [try: body except Exception as e: handler e] *)
Definition try_except {A} (body : io A) (handler : exn → io A) : io A :=
  λ w,
    match body w with
    | (w', Ok v) => (w', Ok v)
    | (w', Raise e) => handler e w'
    end.

Definition lift {A} (r : result A) : io A := λ w, (w, r).

Definition print (m : message) : io unit :=
  λ w, (World (files w) (console w ++ [m]), Ok ()).

Fixpoint print_each {A} (f : A → message) (l : list A) : io unit :=
  match l with
  | [] => mret ()
  | x :: l' => print (f x);; print_each f l'
  end.

Definition parse (path : str) : io Element :=
  λ w, (w, ET_parse (files w) path).

Definition write (root : Element) (path : str) : io unit :=
  λ w,
    let '(fs', r) := ET_write (files w) root path in
    (World fs' (console w),
     match r with None => Ok () | Some e => Raise e end).

(** [open] names the path it was given in the [filename] of its
    [FileNotFoundError]. *)
Definition read_text (path : str) : io str :=
  λ w,
    (w,
     match read_file (files w) path with
     | Content c => Ok c
     | NotFound => Raise (FileNotFoundError path)
     | Failed m => Raise (OtherError m)
     end).

(** [sort_library_by_path], lines 16 to 61. *)
Definition sort_library_by_path (input_filepath output_filepath : str) : io bool :=
  try_except
    (root ← parse input_filepath;
     root' ← lift (reorder root);
     write root' output_filepath;;
     print (MsgSorted input_filepath output_filepath);;
     mret true)
    (λ e,
       match e with
       | FileNotFoundError _ =>
           print (MsgInputNotFound input_filepath);; mret false
       | ParseError m =>
           print (MsgParseError input_filepath m);; mret false
       | _ =>
           print (MsgSortUnexpected (exn_text e));; mret false
       end).

(** Lines 108 to 114: the unique ids whose search pattern is not in the
    output text, in the iteration order of the set. *)
Definition missing_ids (unique_input_ids : gset str) (output_content : str) : list str :=
  filter (λ book_id, contains (search_pattern book_id) output_content = false)
         (elements unique_input_ids).

(** The [try] block of [verify_book_ids], lines 78 to 123. *)
Definition verify_body (input_filepath output_filepath : str) : io unit :=
  input_content ← read_text input_filepath;
  let all_input_ids := findall_book_ids input_content in
  if decide (all_input_ids = []) then print MsgNoBookIds
  else
    let unique_input_ids : gset str := list_to_set all_input_ids in
    (if decide (size unique_input_ids < length all_input_ids) then
       print (MsgDuplicateWarning input_filepath);;
       let duplicates := duplicates_of (Counter all_input_ids) in
       print MsgDuplicateHeader;;
       print_each (λ ic, MsgDuplicateItem ic.1 ic.2) duplicates
     else mret ());;
    print (MsgFoundUnique (size unique_input_ids) input_filepath);;
    output_content ← read_text output_filepath;
    let missing := missing_ids unique_input_ids output_content in
    if decide (missing = []) then
      print (MsgVerifySuccess (size unique_input_ids) output_filepath)
    else
      print (MsgVerifyFailed (length missing));;
      print MsgMissingHeader;;
      print_each MsgMissingItem missing.

(** [verify_book_ids], lines 63 to 128. *)
Definition verify_book_ids (input_filepath output_filepath : str) : io unit :=
  print MsgVerifyStart;;
  try_except
    (verify_body input_filepath output_filepath)
    (λ e,
       match e with
       | FileNotFoundError filename => print (MsgVerifyFileNotFound filename)
       | _ => print (MsgVerifyUnexpected (exn_text e))
       end).

(** The script body, lines 139 to 143. *)
Definition main : io unit :=
  success ← sort_library_by_path (s "library.xml") (s "library_sorted.xml");
  if success : bool
  then verify_book_ids (s "library.xml") (s "library_sorted.xml")
  else mret ().

End program.

(** * Properties *)

(** ** The order on strings *)

Lemma str_ltb_lexico (a b : str) : str_ltb a b = true ↔ lexico a b.
Proof.
  revert b. induction a as [|x a IH]; intros [|y b]; simpl; try done.
  unfold lexico at 1; simpl. fold (@lexico (list N) _).
  unfold lexico at 1, prod_lexico; simpl.
  unfold lexico at 1, N_lexico.
  destruct (N.ltb_spec x y) as [Hlt|Hge].
  - split; auto.
  - destruct (N.eqb_spec x y) as [->|Hne].
    + rewrite IH. split; [auto|]. intros [?|[_ ?]]; [lia|done].
    + split; [done|]. intros [?|[? _]]; [lia|done].
Qed.

Lemma str_le_alt (a b : str) : str_le a b ↔ ¬ lexico b a.
Proof.
  unfold str_le, str_leb. rewrite negb_true_iff, <-str_ltb_lexico.
  destruct (str_ltb b a); naive_solver.
Qed.

Lemma str_le_empty (a : str) : str_le [] a.
Proof. by destruct a. Qed.

Global Instance str_le_refl : Reflexive str_le.
Proof. intros a. apply str_le_alt, (irreflexivity lexico). Qed.

Global Instance str_le_trans : Transitive str_le.
Proof.
  intros a b c. rewrite !str_le_alt. intros Hba Hcb Hca.
  destruct (trichotomy lexico a b) as [Hab|[->|Hba']]; [|done..].
  apply Hcb. by etrans.
Qed.

Lemma str_le_total (a b : str) : str_le a b ∨ str_le b a.
Proof.
  rewrite !str_le_alt.
  destruct (trichotomy lexico a b) as [Hab|[->|Hba]].
  - left. intros Hba. by apply (irreflexivity lexico a); etrans.
  - left. apply (irreflexivity lexico).
  - right. intros Hab. by apply (irreflexivity lexico a); etrans.
Qed.


(** ** The builtin [sorted] *)

Section sorted_facts.
Context {A : Type} (key : A → str).

(** The order [sorted] establishes: keys do not decrease. *)
Definition key_le (x y : A) : Prop := str_le (key x) (key y).

Lemma insert_by_perm (x : A) (l : list A) : insert_by key x l ≡ₚ x :: l.
Proof.
  induction l as [|y l IH]; simpl; [done|].
  destruct (str_ltb _ _); [|done].
  by rewrite IH, Permutation_swap.
Qed.

Lemma sorted_perm (l : list A) : sorted key l ≡ₚ l.
Proof.
  induction l as [|x l IH]; simpl; [done|].
  by rewrite insert_by_perm, IH.
Qed.

Lemma insert_by_sorted (x : A) (l : list A) :
  StronglySorted key_le l → StronglySorted key_le (insert_by key x l).
Proof.
  induction 1 as [|y l Hl IH Hy]; simpl.
  - repeat constructor.
  - destruct (str_ltb (key y) (key x)) eqn:Hlt.
    + constructor; [done|].
      rewrite insert_by_perm. constructor; [|done].
      unfold key_le. apply str_le_alt. intros Hxy.
      apply str_ltb_lexico in Hlt.
      by apply (irreflexivity lexico (key x)); etrans.
    + assert (key_le x y) as Hxy by (unfold key_le, str_le, str_leb; by rewrite Hlt).
      constructor; [by constructor|].
      constructor; [done|].
      eapply Forall_impl; [exact Hy|].
      intros z Hyz. unfold key_le in *. by etrans.
Qed.

Lemma sorted_sorted (l : list A) : StronglySorted key_le (sorted key l).
Proof.
  induction l as [|x l IH]; simpl; [constructor|by apply insert_by_sorted].
Qed.

(** Stability: the elements with a given key keep their order. *)
Lemma insert_by_filter_key (k : str) (x : A) (l : list A) :
  filter (λ a, key a = k) (insert_by key x l) = filter (λ a, key a = k) (x :: l).
Proof.
  induction l as [|y l IH]; simpl; [done|].
  destruct (str_ltb (key y) (key x)) eqn:Hlt; [|done].
  rewrite (filter_cons _ y), IH, !(filter_cons _ x), !(filter_cons _ y).
  repeat case_decide; try done.
  exfalso. apply str_ltb_lexico in Hlt.
  apply (irreflexivity lexico k). congruence.
Qed.

Lemma sorted_filter_key (k : str) (l : list A) :
  filter (λ a, key a = k) (sorted key l) = filter (λ a, key a = k) l.
Proof.
  induction l as [|x l IH]; simpl; [done|].
  by rewrite insert_by_filter_key, !filter_cons, IH.
Qed.
End sorted_facts.

(** ** Relative order in a list *)

(** [before a b l]: an occurrence of [a] in [l] is followed, possibly after
    other elements, by an occurrence of [b]. *)
Definition before {A} (a b : A) (l : list A) : Prop :=
  ∃ l1 l2 l3, l = l1 ++ a :: l2 ++ b :: l3.

Section before_facts.
Context {A : Type}.
Implicit Types (l m : list A) (a b : A).

Lemma filter_split (P : A → Prop) `{!∀ x, Decision (P x)} l m1 a m2 :
  filter P l = m1 ++ a :: m2 →
  ∃ l1 l2, l = l1 ++ a :: l2 ∧ filter P l1 = m1 ∧ filter P l2 = m2.
Proof.
  revert m1. induction l as [|x l IH]; intros m1 Heq.
  - by destruct m1.
  - rewrite filter_cons in Heq. case_decide as Hx.
    + destruct m1 as [|y m1]; simpl in Heq; injection Heq as -> Heq.
      * exists [], l. by rewrite filter_nil.
      * destruct (IH _ Heq) as (l1 & l2 & -> & <- & <-).
        exists (y :: l1), l2. by rewrite filter_cons_True.
    + destruct (IH _ Heq) as (l1 & l2 & -> & <- & <-).
      exists (x :: l1), l2. by rewrite filter_cons_False.
Qed.

Lemma before_filter (P : A → Prop) `{!∀ x, Decision (P x)} a b l :
  P a → P b → before a b (filter P l) ↔ before a b l.
Proof.
  intros Ha Hb. split.
  - intros (m1 & m2 & m3 & Heq).
    apply filter_split in Heq as (l1 & l' & -> & _ & Heq).
    apply filter_split in Heq as (l2 & l3 & -> & _ & _).
    by exists l1, l2, l3.
  - intros (l1 & l2 & l3 & ->).
    exists (filter P l1), (filter P l2), (filter P l3).
    by rewrite filter_app, filter_cons_True, filter_app, filter_cons_True.
Qed.

Lemma before_elem_of a b l : before a b l → a ∈ l ∧ b ∈ l.
Proof. intros (l1 & l2 & l3 & ->). set_solver. Qed.

(** Equal keys: [sorted] keeps the relative order. *)
Lemma sorted_before_stable (key : A → str) a b l :
  key a = key b → before a b (sorted key l) ↔ before a b l.
Proof.
  intros Hk.
  rewrite <-(before_filter (λ x, key x = key a) a b (sorted key l)) by done.
  rewrite <-(before_filter (λ x, key x = key a) a b l) by done.
  by rewrite sorted_filter_key.
Qed.

End before_facts.

(** ** Removing and appending children *)

(** A root as [ET.parse] builds it: its children are distinct objects. *)
Definition distinct_children (root : Element) : Prop :=
  NoDup (eid <$> children root).

Lemma set_children_set_children root cs cs' :
  set_children (set_children root cs) cs' = set_children root cs'.
Proof. done. Qed.

Lemma filter_ext_elem {A} (P Q : A → Prop)
    `{!∀ x, Decision (P x), !∀ x, Decision (Q x)} (l : list A) :
  (∀ x, x ∈ l → P x ↔ Q x) → filter P l = filter Q l.
Proof.
  induction l as [|x l IH]; intros Hl; [done|].
  assert (P x ↔ Q x) as Hx by (apply Hl; left).
  rewrite !filter_cons, IH by (intros y Hy; apply Hl; by right).
  repeat case_decide; tauto.
Qed.

Lemma filter_all {A} (P : A → Prop) `{!∀ x, Decision (P x)} (l : list A) :
  (∀ x, x ∈ l → P x) → filter P l = l.
Proof.
  induction l as [|x l IH]; intros Hl; [done|].
  rewrite filter_cons_True by (apply Hl; left).
  f_equal. apply IH. intros y Hy. apply Hl. by right.
Qed.

Lemma NoDup_eid_filter (P : Element → Prop) `{!∀ x, Decision (P x)} cs :
  NoDup (eid <$> cs) → NoDup (eid <$> filter P cs).
Proof.
  intros Hnd. eapply sublist_NoDup; [exact Hnd|].
  apply fmap_sublist, sublist_filter.
Qed.

Lemma remove_child_ok (b : Element) (cs : list Element) :
  NoDup (eid <$> cs) → b ∈ cs →
  remove_child b cs = Ok (filter (λ c, eid c ≠ eid b) cs).
Proof.
  induction cs as [|c cs IH]; intros Hnd Hin; [by apply elem_of_nil in Hin|].
  rewrite fmap_cons in Hnd. apply NoDup_cons in Hnd as [Hc Hnd].
  simpl. case_decide as Heq.
  - rewrite filter_cons_False by naive_solver.
    rewrite filter_all; [done|].
    intros x Hx Hxb. apply Hc. rewrite Heq, <-Hxb. by apply list_elem_of_fmap_2.
  - apply elem_of_cons in Hin as [->|Hin]; [done|].
    rewrite IH by done. simpl. by rewrite filter_cons_True.
Qed.

Lemma remove_each_ok (books : list Element) (root : Element) :
  distinct_children root →
  NoDup (eid <$> books) →
  (∀ b, b ∈ books → b ∈ children root) →
  remove_each root books =
    Ok (set_children root
          (filter (λ c, eid c ∉ eid <$> books) (children root))).
Proof.
  unfold distinct_children.
  revert root. induction books as [|b books IH]; intros root Hnd Hbs Hsub.
  - simpl. rewrite filter_all by set_solver. by destruct root.
  - rewrite fmap_cons in Hbs. apply NoDup_cons in Hbs as [Hb Hbs].
    simpl. unfold remove. rewrite remove_child_ok by set_solver. simpl.
    rewrite IH; simpl.
    + rewrite set_children_set_children, list_filter_filter.
      do 2 f_equal. apply filter_ext_elem. intros c _. set_solver.
    + by apply NoDup_eid_filter.
    + done.
    + intros b' Hb'. apply list_elem_of_filter. split; [|set_solver].
      intros Heq. apply Hb. rewrite <-Heq. by apply list_elem_of_fmap_2.
Qed.

Lemma append_each_ok (books : list Element) (root : Element) :
  append_each root books = set_children root (children root ++ books).
Proof.
  revert root. induction books as [|b books IH]; intros root; simpl.
  - rewrite app_nil_r. by destruct root.
  - rewrite IH. unfold append. simpl.
    by rewrite set_children_set_children, <-app_assoc.
Qed.

(** The children that [findall] does not select. *)
Definition others (name : str) (root : Element) : list Element :=
  filter (λ c, tag c ≠ name) (children root).

(** What lines 31 to 44 build: the other children in their order, then the
    books in sorted order. *)
Lemma reorder_ok (root : Element) :
  distinct_children root →
  reorder root =
    Ok (set_children root
          (others (s "book") root ++ sorted path_key (findall (s "book") root))).
Proof.
  intros Hnd. unfold reorder, findall, others.
  rewrite remove_each_ok; [|done|by apply NoDup_eid_filter|].
  - simpl. rewrite append_each_ok. simpl.
    rewrite set_children_set_children. do 3 f_equal.
    apply filter_ext_elem. intros c Hc.
    rewrite list_elem_of_fmap. split.
    + intros Hn Ht. apply Hn. exists c. split; [done|].
      by apply list_elem_of_filter.
    + intros Ht (c' & Heq & Hc'). apply list_elem_of_filter in Hc' as [Ht' Hc'].
      assert (c = c') as ->; [|done].
      revert Hc Hc' Heq. clear -Hnd. unfold distinct_children in Hnd.
      induction (children root) as [|x l IH]; [set_solver|].
      rewrite fmap_cons in Hnd. apply NoDup_cons in Hnd as [Hx Hnd].
      rewrite !elem_of_cons. intros [->|Hc] [->|Hc'] Heq; auto.
      * exfalso. apply Hx. rewrite Heq. by apply list_elem_of_fmap_2.
      * exfalso. apply Hx. rewrite <-Heq. by apply list_elem_of_fmap_2.
  - intros b Hb. by apply list_elem_of_filter in Hb as [_ ?].
Qed.

(** ** The sorted tree *)

Abbreviation book := (s "book").

(** The tree that [sort_library_by_path] writes for [root]. *)
Definition reordered (root : Element) : Element :=
  set_children root (others book root ++ sorted path_key (findall book root)).

Lemma filter_none {A} (P : A → Prop) `{!∀ x, Decision (P x)} (l : list A) :
  (∀ x, x ∈ l → ¬ P x) → filter P l = [].
Proof.
  induction l as [|x l IH]; intros Hl; [done|].
  rewrite filter_cons_False by (apply Hl; left).
  apply IH. intros y Hy. apply Hl. by right.
Qed.

Lemma elem_of_sorted_findall (x : Element) (root : Element) :
  x ∈ sorted path_key (findall book root) ↔ tag x = book ∧ x ∈ children root.
Proof. rewrite sorted_perm. unfold findall. by rewrite list_elem_of_filter. Qed.

Lemma findall_reordered (root : Element) :
  findall book (reordered root) = sorted path_key (findall book root).
Proof.
  unfold findall at 1, reordered. simpl. rewrite filter_app.
  rewrite filter_none, filter_all; [done|..].
  - intros x Hx. by apply elem_of_sorted_findall in Hx as [? _].
  - intros x Hx. by apply list_elem_of_filter in Hx as [? _].
Qed.

Lemma others_reordered (root : Element) :
  others book (reordered root) = others book root.
Proof.
  unfold others at 1, reordered. simpl. rewrite filter_app.
  rewrite filter_all, filter_none; [by rewrite app_nil_r|..].
  - intros x Hx. apply elem_of_sorted_findall in Hx as [? _]. tauto.
  - intros x Hx. by apply list_elem_of_filter in Hx as [? _].
Qed.

(** ** A small catalog *)

Module Demo.
#[local] Open Scope string_scope.

Definition element (i : nat) (name : string) (attrs : list (string * string)) : Element :=
  {| eid := i; tag := s name;
     attrib := list_to_map ((λ kv, (s kv.1, s kv.2)) <$> attrs);
     text := None; tail := Some (s " "); children := [] |}.

Definition book_b : Element := element 1 "book" [("id", "b"); ("path", "z/2.txt")].
Definition note : Element := element 2 "note" [("lang", "en")].
Definition book_a : Element := element 3 "book" [("id", "a"); ("path", "y/1.txt")].
Definition book_c : Element := element 4 "book" [("id", "c")].
Definition book_d : Element := element 5 "book" [("path", "y/1.txt"); ("id", "d")].

(** A root whose books and other children are interleaved, with two
    books on the same path and one without a path. *)
Definition library : Element :=
  {| eid := 0; tag := s "library"; attrib := {[ s "version" := s "20110515" ]};
     text := Some (s " "); tail := None;
     children := [book_b; note; book_a; book_c; book_d] |}.

Lemma library_distinct : distinct_children library.
Proof.
  unfold distinct_children. simpl. apply NoDup_ListNoDup.
  repeat constructor; simpl; intuition lia.
Defined.
End Demo.

Example reorder_library :
  reorder Demo.library =
    Ok (set_children Demo.library
          [Demo.note; Demo.book_c; Demo.book_a; Demo.book_d; Demo.book_b]).
Proof. vm_compute. reflexivity. Qed.

(** ** The sorter on the tree *)

(** The pair the content check compares for a book: its [id] and all of
    its attributes. *)
Definition id_and_attributes (b : Element) : option str * gmap str str :=
  (attrib b !! s "id", attrib b).





(** C1. Content preservation: on a parsed catalog the sorter succeeds, and
    the tree it writes has the same children up to order; the books are
    the same objects with the same attributes, so the multiset of
    (id, attributes) pairs is the same; the other children are the same
    and in the same order; the root itself is unchanged. *)
Theorem sort_preserves_content (root : Element) :
  distinct_children root →
  ∃ root', reorder root = Ok root' ∧
    children root' ≡ₚ children root ∧
    findall book root' ≡ₚ findall book root ∧
    id_and_attributes <$> findall book root' ≡ₚ
      id_and_attributes <$> findall book root ∧
    others book root' = others book root ∧
    set_children root' [] = set_children root [].
Proof.
  intros Hnd. exists (reordered root). split; [by apply reorder_ok|].
  rewrite findall_reordered, others_reordered, sorted_perm.
  repeat split; try done.
  unfold reordered, others, findall. simpl. rewrite sorted_perm.
  rewrite (comm (++)). apply filter_app_complement.
Qed.

Lemma sort_preserves_content_witness :
  distinct_children Demo.library ∧
  ∃ root', reorder Demo.library = Ok root' ∧
    children root' ≡ₚ children Demo.library ∧
    findall book root' ≡ₚ findall book Demo.library ∧
    id_and_attributes <$> findall book root' ≡ₚ
      id_and_attributes <$> findall book Demo.library ∧
    others book root' = others book Demo.library ∧
    set_children root' [] = set_children Demo.library [].
Proof.
  split; [exact Demo.library_distinct|].
  exact (sort_preserves_content Demo.library Demo.library_distinct).
Defined.



(** C3. Stability: books with the same sort key are in the same relative
    order in the written tree as in the parsed one. *)
Theorem sort_is_stable (root : Element) :
  distinct_children root →
  ∃ root', reorder root = Ok root' ∧
    (∀ k, filter (λ b, path_key b = k) (findall book root') =
          filter (λ b, path_key b = k) (findall book root)) ∧
    (∀ a b, path_key a = path_key b →
       before a b (findall book root') ↔ before a b (findall book root)).
Proof.
  intros Hnd. exists (reordered root). split; [by apply reorder_ok|].
  rewrite findall_reordered. split.
  - intros k. apply sorted_filter_key.
  - intros a b Hk. by apply sorted_before_stable.
Qed.

Lemma sort_is_stable_witness :
  distinct_children Demo.library ∧
  ∃ root', reorder Demo.library = Ok root' ∧
    (∀ k, filter (λ b, path_key b = k) (findall book root') =
          filter (λ b, path_key b = k) (findall book Demo.library)) ∧
    (∀ a b, path_key a = path_key b →
       before a b (findall book root') ↔ before a b (findall book Demo.library)).
Proof.
  split; [exact Demo.library_distinct|].
  exact (sort_is_stable Demo.library Demo.library_distinct).
Defined.



(** C5. Books go to the end: the written tree has first the children that
    are not books, unchanged and in their order, then all the books in
    sorted order. *)
Theorem books_moved_to_end (root : Element) :
  distinct_children root →
  ∃ root', reorder root = Ok root' ∧
    children root' = others book root ++ sorted path_key (findall book root) ∧
    Forall (λ c, tag c ≠ book ∧ c ∈ children root) (others book root) ∧
    Forall (λ c, tag c = book ∧ c ∈ children root)
           (sorted path_key (findall book root)) ∧
    others book root' = others book root.
Proof.
  intros Hnd. exists (reordered root). split; [by apply reorder_ok|].
  split; [done|]. rewrite others_reordered. repeat split.
  - apply Forall_forall. intros x Hx. by apply list_elem_of_filter in Hx.
  - apply Forall_forall. intros x Hx. by apply elem_of_sorted_findall in Hx.
Qed.

Lemma books_moved_to_end_witness :
  distinct_children Demo.library ∧
  ∃ root', reorder Demo.library = Ok root' ∧
    children root' =
      others book Demo.library ++ sorted path_key (findall book Demo.library) ∧
    Forall (λ c, tag c ≠ book ∧ c ∈ children Demo.library) (others book Demo.library) ∧
    Forall (λ c, tag c = book ∧ c ∈ children Demo.library)
           (sorted path_key (findall book Demo.library)) ∧
    others book root' = others book Demo.library.
Proof.
  split; [exact Demo.library_distinct|].
  exact (books_moved_to_end Demo.library Demo.library_distinct).
Defined.

(** ** Text search *)

(** [occurs needle hay]: [needle] is a substring of [hay]. *)
Definition occurs (needle hay : str) : Prop :=
  ∃ before_it after_it, hay = before_it ++ needle ++ after_it.

Lemma after_prefix_spec (p t r : str) : after_prefix p t = Some r ↔ t = p ++ r.
Proof.
  revert t. induction p as [|a p IH]; intros [|b t]; simpl; try naive_solver.
  destruct (N.eqb_spec a b) as [->|Hne].
  - rewrite IH. naive_solver.
  - naive_solver.
Qed.

Lemma after_prefix_app (p r : str) : after_prefix p (p ++ r) = Some r.
Proof. by apply after_prefix_spec. Qed.

Lemma contains_spec (needle hay : str) :
  contains needle hay = true ↔ occurs needle hay.
Proof.
  unfold occurs. induction hay as [|c hay IH]; simpl.
  - destruct (after_prefix needle []) as [r|] eqn:Hp.
    + apply after_prefix_spec in Hp. split; [|done]. intros _. by exists [], r.
    + split; [done|]. intros (a & b & Heq).
      destruct a; [|done]. simpl in Heq.
      apply after_prefix_spec in Heq. congruence.
  - destruct (after_prefix needle (c :: hay)) as [r|] eqn:Hp.
    + apply after_prefix_spec in Hp. split; [|done]. intros _. by exists [], r.
    + rewrite IH. split.
      * intros (a & b & ->). by exists (c :: a), b.
      * intros (a & b & Heq). destruct a as [|c' a]; simpl in Heq.
        -- apply after_prefix_spec in Heq. congruence.
        -- injection Heq as -> ->. by exists a, b.
Qed.

Lemma contains_false (needle hay : str) :
  contains needle hay = false ↔ ¬ occurs needle hay.
Proof. rewrite <-contains_spec. by destruct (contains needle hay). Qed.

Lemma quoted_run_spec (t v r : str) :
  quoted_run t = Some (v, r) ↔ t = v ++ dquote :: r ∧ dquote ∉ v.
Proof.
  revert v. induction t as [|c t IH]; intros v; simpl.
  - split; [done|]. intros [Heq _]. by destruct v.
  - destruct (N.eqb_spec c dquote) as [->|Hne].
    + split.
      * intros [= <- <-]. split; [done|]. apply not_elem_of_nil.
      * intros [Heq Hv]. destruct v as [|c' v]; simpl in Heq.
        -- by injection Heq as ->.
        -- injection Heq as <- _. exfalso. apply Hv. left.
    + destruct (quoted_run t) as [[v' r']|] eqn:Hq; simpl.
      * split.
        -- intros [= <- <-]. destruct (proj1 (IH v') eq_refl) as [-> Hv'].
           split; [done|]. intros [?|?]%elem_of_cons; done.
        -- intros [Heq Hv]. destruct v as [|c' v]; simpl in Heq.
           ++ by injection Heq as ->.
           ++ injection Heq as <- Heq.
              assert (Some (v', r') = Some (v, r)) as [= -> ->]; [|done].
              apply IH. split; [done|]. intros ?. apply Hv. by right.
      * split; [done|]. intros [Heq Hv]. destruct v as [|c' v]; simpl in Heq.
        -- by injection Heq as ->.
        -- injection Heq as <- Heq.
           assert (None = Some (v, r)) as [=].
           apply IH. split; [done|]. intros ?. apply Hv. by right.
Qed.

Lemma match_book_id_spec (t v r : str) :
  match_book_id t = Some (v, r) ↔
  t = book_id_prefix ++ v ++ dquote :: r ∧ v ≠ [] ∧ dquote ∉ v.
Proof.
  unfold match_book_id. split.
  - destruct (after_prefix book_id_prefix t) as [t1|] eqn:Hp; [|done]. simpl.
    destruct (quoted_run t1) as [[v' r']|] eqn:Hq; [|done]. simpl.
    case_decide as Hv; [done|]. intros [= <- <-].
    apply after_prefix_spec in Hp. apply quoted_run_spec in Hq as [-> ?].
    by rewrite Hp.
  - intros (-> & Hv & Hq). rewrite after_prefix_app. simpl.
    assert (quoted_run (v ++ dquote :: r) = Some (v, r)) as ->
      by (by apply quoted_run_spec).
    simpl. by rewrite decide_False.
Qed.

Lemma match_book_id_shorter (t v r : str) :
  match_book_id t = Some (v, r) → length r < length t.
Proof.
  intros (-> & _ & _)%match_book_id_spec.
  rewrite !length_app. simpl. lia.
Qed.

(** The scan does not depend on the fuel once there is enough of it. *)
Lemma findall_scan_fuel (n m : nat) (t : str) :
  length t < n → length t < m → findall_scan n t = findall_scan m t.
Proof.
  revert m t. induction n as [|n IH]; intros [|m] t Hn Hm; [lia..|].
  simpl. destruct (match_book_id t) as [[v r]|] eqn:Hmatch.
  - apply match_book_id_shorter in Hmatch. f_equal. apply IH; lia.
  - destruct t as [|c t]; [done|]. simpl in *. apply IH; lia.
Qed.

(** The equation of the scan, without fuel. *)
Lemma findall_book_ids_unfold (t : str) :
  findall_book_ids t =
    match match_book_id t with
    | Some (v, rest) => v :: findall_book_ids rest
    | None =>
        match t with
        | [] => []
        | _ :: t' => findall_book_ids t'
        end
    end.
Proof.
  unfold findall_book_ids at 1. simpl.
  destruct (match_book_id t) as [[v r]|] eqn:Hmatch.
  - apply match_book_id_shorter in Hmatch. f_equal.
    apply findall_scan_fuel; simpl; lia.
  - destruct t as [|c t]; [done|]. apply findall_scan_fuel; simpl; lia.
Qed.

Lemma occurs_cons (needle hay : str) (c : N) :
  occurs needle hay → occurs needle (c :: hay).
Proof. intros (a & b & ->). by exists (c :: a), b. Qed.

Lemma occurs_app_l (needle hay pre : str) :
  occurs needle hay → occurs needle (pre ++ hay).
Proof. intros (a & b & ->). exists (pre ++ a), b. by rewrite <-app_assoc. Qed.

(** A place in [t] where the pattern of line 83 matches with group [v]. *)
Definition book_id_at (v t : str) : Prop :=
  v ≠ [] ∧ (dquote ∉ v) ∧ occurs (book_id_prefix ++ v ++ [dquote]) t.

(** An extracted id is the group of a place where the pattern matches. *)
Lemma findall_scan_sound (n : nat) (t v : str) :
  v ∈ findall_scan n t → book_id_at v t.
Proof.
  revert t. induction n as [|n IH]; intros t; simpl.
  { by intros ?%elem_of_nil. }
  destruct (match_book_id t) as [[v' r]|] eqn:Hmatch.
  - apply match_book_id_spec in Hmatch as (-> & Hv' & Hq).
    intros [->|Hin]%elem_of_cons.
    + repeat split; [done..|]. exists [], r. simpl.
      by rewrite <-!app_assoc.
    + destruct (IH _ Hin) as (? & ? & Hocc). repeat split; [done..|].
      apply occurs_app_l.
      replace (v' ++ dquote :: r) with ((v' ++ [dquote]) ++ r)
        by (rewrite <-app_assoc; done).
      by apply occurs_app_l.
  - destruct t as [|c t]; [by intros ?%elem_of_nil|].
    intros Hin. destruct (IH _ Hin) as (? & ? & Hocc).
    repeat split; [done..|]. by apply occurs_cons.
Qed.

Lemma findall_book_ids_sound (t v : str) :
  v ∈ findall_book_ids t → book_id_at v t.
Proof. apply findall_scan_sound. Qed.

(** Where the pattern matches somewhere, the scan finds an id. *)
Lemma findall_book_ids_complete (t v : str) :
  book_id_at v t → findall_book_ids t ≠ [].
Proof.
  intros (Hv & Hq & a & b & ->). induction a as [|c a IH].
  - rewrite findall_book_ids_unfold.
    assert (match_book_id ([] ++ (book_id_prefix ++ v ++ [dquote]) ++ b)
            = Some (v, b)) as ->; [|done].
    apply match_book_id_spec. simpl. by rewrite <-!app_assoc.
  - rewrite findall_book_ids_unfold.
    destruct (match_book_id _) as [[v' r]|]; [done|]. exact IH.
Qed.

(** No id is extracted exactly when the pattern matches nowhere. *)
Lemma findall_book_ids_nil (t : str) :
  findall_book_ids t = [] ↔ ∀ v, ¬ book_id_at v t.
Proof.
  split.
  - intros Hnil v Hat. by apply (findall_book_ids_complete t v).
  - intros Hno. destruct (findall_book_ids t) as [|v l] eqn:Hf; [done|].
    exfalso. apply (Hno v), findall_book_ids_sound. rewrite Hf. left.
Qed.

Example findall_two_books :
  findall_book_ids
    (s "<book id=" ++ [dquote] ++ s "b" ++ [dquote] ++ s " path=" ++ [dquote]
       ++ s "z" ++ [dquote] ++ s "/><book id=" ++ [dquote] ++ s "a" ++ [dquote]
       ++ s "/>")
  = [s "b"; s "a"].
Proof. vm_compute. reflexivity. Qed.

(** ** Counting ids *)

(** How often [x] is in [l]. *)
Definition occurrences (x : str) (l : list str) : nat :=
  length (filter (λ y, y = x) l).

(** The count a [Counter] holds for [x], 0 for a missing key. *)
Fixpoint count_of (d : list (str * nat)) (x : str) : nat :=
  match d with
  | [] => 0
  | (y, n) :: d' => if decide (y = x) then n else count_of d' x
  end.

(** A well-formed counter: no key twice, no zero count. *)
Definition counter_wf (d : list (str * nat)) : Prop :=
  NoDup d.*1 ∧ Forall (λ ic, 0 < ic.2) d.

Lemma count_of_add (x y : str) (d : list (str * nat)) :
  count_of (count_add x d) y =
    if decide (y = x) then S (count_of d x) else count_of d y.
Proof.
  induction d as [|[z n] d IH]; simpl.
  - repeat case_decide; congruence.
  - repeat (case_decide; simpl; subst); try congruence.
Qed.

Lemma count_add_keys (x : str) (d : list (str * nat)) (y : str) :
  y ∈ (count_add x d).*1 ↔ y = x ∨ y ∈ d.*1.
Proof.
  induction d as [|[z n] d IH]; simpl.
  - set_solver.
  - case_decide; simpl; subst; set_solver.
Qed.

Lemma count_add_wf (x : str) (d : list (str * nat)) :
  counter_wf d → counter_wf (count_add x d).
Proof.
  unfold counter_wf. induction d as [|[z n] d IH]; simpl.
  - intros _. split; [apply NoDup_singleton|]. repeat constructor.
  - rewrite NoDup_cons, Forall_cons. simpl. intros [[Hz Hnd] [Hn Hpos]].
    case_decide; simpl.
    + rewrite NoDup_cons, Forall_cons. simpl. repeat split; [done..|lia|done].
    + destruct IH as [Hnd' Hpos']; [done|].
      rewrite NoDup_cons, Forall_cons. simpl. repeat split; [|done..].
      rewrite count_add_keys. naive_solver.
Qed.

Lemma counter_wf_elem_of (d : list (str * nat)) (x : str) (n : nat) :
  counter_wf d → (x, n) ∈ d ↔ count_of d x = n ∧ 0 < n.
Proof.
  unfold counter_wf. induction d as [|[z m] d IH]; simpl.
  - intros _. split; [by intros ?%elem_of_nil|lia].
  - rewrite NoDup_cons, Forall_cons. simpl. intros [[Hz Hnd] [Hm Hpos]].
    rewrite elem_of_cons, IH by done. case_decide as Hzx.
    + subst z. split.
      * intros [[= ->]|[Hc Hn]]; [done|].
        exfalso. apply Hz. clear -Hc Hn.
        induction d as [|[z k] d IH]; simpl in *; [lia|].
        case_decide; [subst; left|right; by apply IH].
      * intros [-> _]. by left.
    + split; [|naive_solver]. intros [[= -> ->]|?]; done.
Qed.

Lemma Counter_snoc (l : list str) (x : str) :
  Counter (l ++ [x]) = count_add x (Counter l).
Proof. unfold Counter. by rewrite foldl_app. Qed.

Lemma Counter_wf (l : list str) : counter_wf (Counter l).
Proof.
  induction l as [|x l IH] using rev_ind.
  - split; [apply NoDup_nil_2|constructor].
  - rewrite Counter_snoc. by apply count_add_wf.
Qed.

Lemma count_of_Counter (l : list str) (x : str) :
  count_of (Counter l) x = occurrences x l.
Proof.
  unfold occurrences. induction l as [|y l IH] using rev_ind; [done|].
  rewrite Counter_snoc, count_of_add, filter_app, length_app, <-IH.
  rewrite filter_cons, filter_nil.
  repeat case_decide; simpl; subst; try congruence; lia.
Qed.

(** What the duplicate listing contains: every id that is more than once
    in [ids], once, with the number of times it is there. *)
Lemma duplicates_of_Counter (ids : list str) :
  NoDup (duplicates_of (Counter ids)).*1 ∧
  ∀ x n, (x, n) ∈ duplicates_of (Counter ids) ↔ n = occurrences x ids ∧ 1 < n.
Proof.
  pose proof (Counter_wf ids) as Hwf. split.
  - eapply sublist_NoDup; [apply Hwf|].
    apply fmap_sublist, sublist_filter.
  - intros x n. unfold duplicates_of.
    rewrite list_elem_of_filter, counter_wf_elem_of, count_of_Counter by done.
    simpl. naive_solver lia.
Qed.

Example Counter_order :
  Counter [s "x"; s "y"; s "x"; s "z"; s "y"; s "x"] =
    [(s "x", 3); (s "y", 2); (s "z", 1)].
Proof. vm_compute. reflexivity. Qed.

(** ** A small file system *)

Module DemoIO.

(** A quoted attribute value. *)
Definition q (v : string) : str := [dquote] ++ s v ++ [dquote].

(** The text of [Demo.library]. *)
Definition library_xml : str :=
s "<library version=" ++ q "20110515" ++ s "> "
++ s "<book id=" ++ q "b" ++ s " path=" ++ q "z/2.txt" ++ s "/> "
++ s "<note lang=" ++ q "en" ++ s "/> "
++ s "<book id=" ++ q "a" ++ s " path=" ++ q "y/1.txt" ++ s "/> "
++ s "<book id=" ++ q "c" ++ s "/> "
++ s "<book path=" ++ q "y/1.txt" ++ s " id=" ++ q "d" ++ s "/> "
++ s "</library>".

(** A catalog whose books the pattern of line 83 does not match: one has
  [path] before [id], the other an empty [id]. *)
Definition unmatched : Element :=
{| eid := 0; tag := s "library"; attrib := ∅; text := None; tail := None;
   children := [Demo.element 1 "book" [("path", "q"); ("id", "x")]%string;
                Demo.element 2 "book" [("id", EmptyString); ("path", "p")]%string] |}.

Definition unmatched_xml : str :=
s "<library>"
++ s "<book path=" ++ q "q" ++ s " id=" ++ q "x" ++ s "/>"
++ s "<book id=" ++ q EmptyString ++ s " path=" ++ q "p" ++ s "/>"
++ s "</library>".

(** Files by name. *)
Abbreviation FS := (gmap str str).

(** A stand-in for the parser that knows the two catalogs above. *)
Definition ET_parse (fs : FS) (path : str) : result Element :=
match fs !! path with
| None => Raise (FileNotFoundError path)
| Some c =>
    if decide (c = library_xml) then Ok Demo.library
    else if decide (c = unmatched_xml) then Ok unmatched
    else Raise (ParseError (s "syntax error: line 1, column 0"))
end.

(** A stand-in for the serializer: one empty-element tag per child. *)
Definition to_xml (root : Element) : str :=
s "<" ++ tag root ++ s ">"
++ mjoin ((λ c,
     s "<" ++ tag c
     ++ mjoin ((λ kv, s " " ++ kv.1 ++ s "=" ++ [dquote] ++ kv.2 ++ [dquote])
                 <$> map_to_list (attrib c))
     ++ s "/>") <$> children root)
++ s "</" ++ tag root ++ s ">".

Definition ET_write (fs : FS) (root : Element) (path : str) : FS * option exn :=
(<[path := to_xml root]> fs, None).

Definition read_file (fs : FS) (path : str) : read_outcome :=
match fs !! path with
| Some c => Content c
| None => NotFound
end.

Definition input : str := s "library.xml".
Definition output : str := s "library_sorted.xml".

(** Only the input file exists. *)
Definition fs0 : FS := {[ input := library_xml ]}.

Definition start : world := World fs0 [].

(** After the sorter ran on [fs0]. *)
Definition fs_sorted : FS := (ET_write fs0 (reordered Demo.library) output).1.

(** No file at all. *)
Definition fs_empty : FS := ∅.

(** An input that is not well-formed. *)
Definition fs_broken : FS := {[ input := s "<library><book" ]}.

(** The catalog the pattern does not match, and no output file. *)
Definition fs_unmatched : FS := {[ input := unmatched_xml ]}.

(** An input in which the id [x] is there twice, as in scenario B, with an
  output that has both ids. *)
Definition twice_xml : str :=
s "<library>"
++ s "<book id=" ++ q "x" ++ s " path=" ++ q "b" ++ s "/>"
++ s "<book id=" ++ q "y" ++ s " path=" ++ q "a" ++ s "/>"
++ s "<book id=" ++ q "x" ++ s " path=" ++ q "c" ++ s "/>"
++ s "</library>".

Definition fs_twice : FS := {[ input := twice_xml; output := twice_xml ]}.

(** An output that lost the book [a]. *)
Definition fs_lost : FS :=
{[ input := library_xml;
   output := s "<library><book id=" ++ q "b" ++ s "/><book id=" ++ q "c"
             ++ s "/></library>" ]}.

Lemma unmatched_distinct : distinct_children unmatched.
Proof.
unfold distinct_children. simpl. apply NoDup_ListNoDup.
repeat constructor; simpl; intuition lia.
Defined.
End DemoIO.

Example main_on_library :
  console (main DemoIO.ET_parse DemoIO.ET_write DemoIO.read_file DemoIO.start).1 =
    [MsgSorted DemoIO.input DemoIO.output;
     MsgVerifyStart;
     MsgFoundUnique 3 DemoIO.input;
     MsgVerifySuccess 3 DemoIO.output].
Proof. vm_compute. reflexivity. Qed.

(** ** The two operations *)

(** The message a handler of [sort_library_by_path] prints for [e]. *)
Definition sort_error (input_filepath : str) (e : exn) : message :=
  match e with
  | FileNotFoundError _ => MsgInputNotFound input_filepath
  | ParseError m => MsgParseError input_filepath m
  | _ => MsgSortUnexpected (exn_text e)
  end.

(** The messages that give the verdict of a verification. *)
Definition is_verdict (m : message) : bool :=
  match m with
  | MsgVerifySuccess _ _ | MsgVerifyFailed _ | MsgMissingHeader
  | MsgMissingItem _ => true
  | _ => false
  end.

(** The messages of lines 93 to 99 for the extracted [ids]. *)
Definition duplicate_report (input_filepath : str) (ids : list str) : list message :=
  if decide (size (list_to_set ids : gset str) < length ids) then
    [MsgDuplicateWarning input_filepath; MsgDuplicateHeader]
    ++ ((λ ic, MsgDuplicateItem ic.1 ic.2) <$> duplicates_of (Counter ids))
  else [].

(** The messages of lines 117 to 123 for the [missing] ids. *)
Definition verdict (n : nat) (output_filepath : str) (missing : list str) : list message :=
  if decide (missing = []) then [MsgVerifySuccess n output_filepath]
  else MsgVerifyFailed (length missing) :: MsgMissingHeader
       :: (MsgMissingItem <$> missing).

(** The messages of the duplicate warning. *)
Definition is_duplicate_message (m : message) : bool :=
  match m with
  | MsgDuplicateWarning _ | MsgDuplicateHeader | MsgDuplicateItem _ _ => true
  | _ => false
  end.

Lemma verdict_is_verdict (n : nat) (out : str) (missing : list str) (m : message) :
  m ∈ verdict n out missing → is_verdict m = true.
Proof.
  unfold verdict. case_decide.
  - by intros ->%list_elem_of_singleton.
  - rewrite !elem_of_cons, list_elem_of_fmap.
    intros [->|[->|(v & -> & _)]]; done.
Qed.

Lemma duplicate_report_is_duplicate (inp : str) (ids : list str) (m : message) :
  m ∈ duplicate_report inp ids → is_duplicate_message m = true.
Proof.
  unfold duplicate_report. case_decide; [|by intros ?%elem_of_nil].
  simpl. rewrite !elem_of_cons, list_elem_of_fmap.
  intros [->|[->|(v & -> & _)]]; done.
Qed.

Lemma missing_ids_spec (ids : list str) (oc : str) :
  NoDup (missing_ids (list_to_set ids) oc) ∧
  ∀ v, v ∈ missing_ids (list_to_set ids) oc ↔
       v ∈ ids ∧ ¬ occurs (search_pattern v) oc.
Proof.
  unfold missing_ids. split.
  - apply NoDup_filter, NoDup_elements.
  - intros v.
    rewrite list_elem_of_filter, elem_of_elements, elem_of_list_to_set.
    rewrite contains_false. tauto.
Qed.

Lemma missing_ids_nil (ids : list str) (oc : str) :
  missing_ids (list_to_set ids) oc = [] ↔
  ∀ v, v ∈ ids → occurs (search_pattern v) oc.
Proof.
  destruct (missing_ids_spec ids oc) as [_ Hm]. split.
  - intros Hnil v Hv.
    destruct (contains (search_pattern v) oc) eqn:Hc; [by apply contains_spec|].
    exfalso. apply contains_false in Hc.
    assert (v ∈ missing_ids (list_to_set ids) oc) as Hin by by apply Hm.
    rewrite Hnil in Hin. by apply elem_of_nil in Hin.
  - intros Hall. destruct (missing_ids _ _) as [|v l]; [done|].
    exfalso. destruct (proj1 (Hm v)) as [Hv Hno]; [left|]. by apply Hno, Hall.
Qed.

(** Closes a goal that compares two runs whose consoles differ only in how
    the appended messages are grouped. *)
Ltac console_eq :=
  simpl; repeat (rewrite <-app_assoc; simpl); done.

Section program_facts.
Context {FS : Type}.
Variable ET_parse : FS → str → result Element.
Variable ET_write : FS → Element → str → FS * option exn.
Variable read_file : FS → str → read_outcome.

#[local] Abbreviation sort := (sort_library_by_path ET_parse ET_write).
#[local] Abbreviation verify := (verify_book_ids read_file).

Lemma print_each_run {A} (f : A → message) (l : list A) (w : world (FS:=FS)) :
print_each f l w = (World (files w) (console w ++ (f <$> l)), Ok ()).
Proof.
revert w. induction l as [|x l IH]; intros [fs c]; simpl.
- by rewrite app_nil_r.
- unfold mbind, io_bind, print. simpl. rewrite IH. simpl.
  by rewrite <-app_assoc.
Qed.

(** One run of the sorter, by what the library calls do. *)
Lemma sort_run (inp out : str) (w : world) :
sort inp out w =
  match ET_parse (files w) inp with
  | Raise e => (World (files w) (console w ++ [sort_error inp e]), Ok false)
  | Ok root =>
      match reorder root with
      | Raise e => (World (files w) (console w ++ [sort_error inp e]), Ok false)
      | Ok root' =>
          match ET_write (files w) root' out with
          | (fs', None) => (World fs' (console w ++ [MsgSorted inp out]), Ok true)
          | (fs', Some e) => (World fs' (console w ++ [sort_error inp e]), Ok false)
          end
      end
  end.
Proof.
destruct w as [fs c].
unfold sort_library_by_path, try_except, mbind, io_bind, parse, lift, write,
  print, mret, io_ret. simpl.
destruct (ET_parse fs inp) as [root|e]; [|by destruct e].
destruct (reorder root) as [root'|e]; [|by destruct e].
destruct (ET_write fs root' out) as [fs' [e|]]; [by destruct e|done].
Qed.

(** One run of the verifier, by what reading the two files gives. *)
Lemma verify_run (inp out : str) (w : world) :
verify inp out w =
  (World (files w)
     (console w ++ MsgVerifyStart ::
        match read_file (files w) inp with
        | NotFound => [MsgVerifyFileNotFound inp]
        | Failed m => [MsgVerifyUnexpected m]
        | Content ic =>
            let ids := findall_book_ids ic in
            if decide (ids = []) then [MsgNoBookIds]
            else
              duplicate_report inp ids
              ++ MsgFoundUnique (size (list_to_set ids : gset str)) inp ::
                 match read_file (files w) out with
                 | NotFound => [MsgVerifyFileNotFound out]
                 | Failed m => [MsgVerifyUnexpected m]
                 | Content oc =>
                     verdict (size (list_to_set ids : gset str)) out
                       (missing_ids (list_to_set ids) oc)
                 end
        end),
   Ok ()).
Proof.
destruct w as [fs c].
unfold verify_book_ids, verify_body, try_except, read_text.
unfold mbind, io_bind, print, mret, io_ret. simpl.
destruct (read_file fs inp) as [ic| |m]; simpl; [|console_eq..].
case_decide as Hids; simpl; [console_eq|].
unfold duplicate_report, verdict.
case_decide as Hdup; simpl; rewrite ?print_each_run; simpl;
  (destruct (read_file fs out) as [oc| |m]; simpl; [|console_eq..]);
  (case_decide; simpl; rewrite ?print_each_run; console_eq).
Qed.

(** C6. Failure of the sorter: when [ET.parse] finds no input file or
  finds it ill-formed, the sorter prints the matching error, returns
  [False] and leaves the file system as it was; it never raises; and it
  returns [True] only when parsing, reordering and the write all went
  through, the write being the only change to the file system. *)
Theorem sort_failure_writes_nothing (inp out : str) (w : world) :
(∀ f, ET_parse (files w) inp = Raise (FileNotFoundError f) →
   sort inp out w =
     (World (files w) (console w ++ [MsgInputNotFound inp]), Ok false)) ∧
(∀ m, ET_parse (files w) inp = Raise (ParseError m) →
   sort inp out w =
     (World (files w) (console w ++ [MsgParseError inp m]), Ok false)) ∧
(∃ w' b, sort inp out w = (w', Ok b)) ∧
(∀ w', sort inp out w = (w', Ok true) →
   ∃ root root',
     ET_parse (files w) inp = Ok root ∧ reorder root = Ok root' ∧
     ET_write (files w) root' out = (files w', None) ∧
     console w' = console w ++ [MsgSorted inp out]).
Proof.
rewrite sort_run. repeat split.
- by intros f ->.
- by intros m ->.
- destruct (ET_parse _ _) as [root|e]; [|by eauto].
  destruct (reorder root) as [root'|e]; [|by eauto].
  destruct (ET_write _ _ _) as [fs' [e|]]; eauto.
- intros w'.
  destruct (ET_parse _ _) as [root|e]; [|done].
  destruct (reorder root) as [root'|e] eqn:Hr; [|done].
  destruct (ET_write _ _ _) as [fs' [e|]] eqn:Hw; [done|].
  intros [= <-]. by exists root, root'.
Qed.

(** C7. The verdict: with both files readable and at least one id
  extracted, the verifier prints, after the messages that come before the
  verdict, the success message exactly when for every extracted id [v]
  the text [id=], a quote, [v], a quote is a substring of the output
  text; otherwise it prints the failure message and lists, once each,
  exactly the extracted ids for which that text is not in the output. *)
Theorem verify_reports_missing_ids (inp out : str) (w : world) (ic oc : str) :
read_file (files w) inp = Content ic →
read_file (files w) out = Content oc →
findall_book_ids ic ≠ [] →
∃ earlier missing,
  verify inp out w =
    (World (files w)
       (console w ++ earlier ++
          if decide (missing = [])
          then [MsgVerifySuccess
                  (size (list_to_set (findall_book_ids ic) : gset str)) out]
          else MsgVerifyFailed (length missing) :: MsgMissingHeader
               :: (MsgMissingItem <$> missing)),
     Ok ()) ∧
  (∀ m, m ∈ earlier → is_verdict m = false) ∧
  NoDup missing ∧
  (∀ v, v ∈ missing ↔
        v ∈ findall_book_ids ic ∧
        ¬ occurs (s "id=" ++ [dquote] ++ v ++ [dquote]) oc) ∧
  (missing = [] ↔
   ∀ v, v ∈ findall_book_ids ic →
        occurs (s "id=" ++ [dquote] ++ v ++ [dquote]) oc).
Proof.
intros Hin Hout Hids.
exists (MsgVerifyStart :: duplicate_report inp (findall_book_ids ic)
          ++ [MsgFoundUnique
                (size (list_to_set (findall_book_ids ic) : gset str)) inp]),
       (missing_ids (list_to_set (findall_book_ids ic)) oc).
destruct (missing_ids_spec (findall_book_ids ic) oc) as [Hnd Hm].
repeat split; try done.
- rewrite verify_run, Hin, Hout. simpl. rewrite decide_False by done.
  unfold verdict. f_equal. f_equal. f_equal. simpl. f_equal.
  by rewrite <-app_assoc.
- intros m. rewrite elem_of_cons, elem_of_app, list_elem_of_singleton.
  intros [->|[Hd| ->]]; [done| |done].
  apply duplicate_report_is_duplicate in Hd. by destruct m.
- by apply Hm.
- by apply Hm.
- by apply Hm.
- by apply missing_ids_nil.
- by apply missing_ids_nil.
Qed.

(** C8. Duplicates: with the input readable, the duplicate warning is
  printed exactly when more ids were extracted than there are unique
  ones; it is then followed by one line for every id that was extracted
  more than once, with the number of times it was; and when every id is
  found in the output the verifier still reports success. *)
Theorem verify_duplicate_warning (inp out : str) (w : world) (ic : str) :
read_file (files w) inp = Content ic →
∃ printed,
  verify inp out w = (World (files w) (console w ++ printed), Ok ()) ∧
  (MsgDuplicateWarning inp ∈ printed ↔
   size (list_to_set (findall_book_ids ic) : gset str)
     < length (findall_book_ids ic)) ∧
  (size (list_to_set (findall_book_ids ic) : gset str)
     < length (findall_book_ids ic) →
   ∃ dups rest,
     printed =
       MsgVerifyStart :: MsgDuplicateWarning inp :: MsgDuplicateHeader
       :: ((λ ic, MsgDuplicateItem ic.1 ic.2) <$> dups)
       ++ MsgFoundUnique
            (size (list_to_set (findall_book_ids ic) : gset str)) inp
          :: rest ∧
     NoDup dups.*1 ∧
     ∀ x n, (x, n) ∈ dups ↔
            n = occurrences x (findall_book_ids ic) ∧ 1 < n) ∧
  (∀ oc, findall_book_ids ic ≠ [] →
     read_file (files w) out = Content oc →
     (∀ v, v ∈ findall_book_ids ic → occurs (search_pattern v) oc) →
     MsgVerifySuccess
       (size (list_to_set (findall_book_ids ic) : gset str)) out ∈ printed ∧
     ∀ k, MsgVerifyFailed k ∉ printed).
Proof.
intros Hin. eexists. split; [by rewrite verify_run, Hin|]. simpl.
set (ids := findall_book_ids ic).
set (n := size (list_to_set ids : gset str)).
set (after_found :=
       match read_file (files w) out with
       | Content oc => verdict n out (missing_ids (list_to_set ids) oc)
       | NotFound => [MsgVerifyFileNotFound out]
       | Failed m => [MsgVerifyUnexpected m]
       end).
assert (∀ m, m ∈ after_found → is_duplicate_message m = false) as Hafter.
{ intros m. unfold after_found. destruct (read_file (files w) out).
  - intros Hv%verdict_is_verdict. by destruct m.
  - by intros ->%list_elem_of_singleton.
  - by intros ->%list_elem_of_singleton. }
split; [|split].
- case_decide as Hids.
  + rewrite Hids. simpl. split; [|lia].
    rewrite !elem_of_cons. intros [|[|?%elem_of_nil]]; done.
  + rewrite elem_of_cons, elem_of_app, elem_of_cons. split.
    * intros [|[Hd|[|Ha]]]; [done| |done|].
      -- unfold duplicate_report in Hd. case_decide; [done|].
         by apply elem_of_nil in Hd.
      -- by apply Hafter in Ha.
    * intros Hlt. right. left. unfold duplicate_report.
      rewrite decide_True by done. left.
- intros Hlt. rewrite decide_False by (intros Hnil; rewrite Hnil in Hlt; simpl in Hlt; lia).
  exists (duplicates_of (Counter ids)), after_found.
  split; [|apply duplicates_of_Counter].
  unfold duplicate_report. by rewrite decide_True by done.
- intros oc Hids Hout Hall. rewrite decide_False by done.
  assert (after_found = [MsgVerifySuccess n out]) as Ha.
  { unfold after_found. rewrite Hout. unfold verdict.
    rewrite decide_True; [done|]. by apply missing_ids_nil. }
  rewrite Ha. split.
  + rewrite elem_of_cons, elem_of_app, !elem_of_cons. tauto.
  + intros k. rewrite elem_of_cons, elem_of_app, !elem_of_cons.
    intros [|[Hd|[|[|?%elem_of_nil]]]]; try done.
    by apply duplicate_report_is_duplicate in Hd.
Qed.


(** The places of the pattern, with the fixed text written out. *)
Lemma book_id_at_literal (v t : str) :
book_id_at v t ↔
v ≠ [] ∧ (dquote ∉ v) ∧ occurs (s "book id=" ++ [dquote] ++ v ++ [dquote]) t.
Proof. done. Qed.

(** C10, amended. What the extraction sees is the raw text: every
  extracted id is a non-empty, quote-free value [v] such that the text
  [book id=], a quote, [v], a quote is a substring of the input, wherever
  that is; no id is extracted exactly when the input has no such
  substring; and then the verifier stops after the warning, for any
  output, while the sorter run on the same input reorders the parsed
  books and returns [True] when the write goes through. *)
Theorem extraction_needs_book_id_first (t : str) :
(∀ v, v ∈ findall_book_ids t →
   v ≠ [] ∧ (dquote ∉ v) ∧
   occurs (s "book id=" ++ [dquote] ++ v ++ [dquote]) t) ∧
(findall_book_ids t = [] ↔
 ∀ v, v ≠ [] → dquote ∉ v →
      ¬ occurs (s "book id=" ++ [dquote] ++ v ++ [dquote]) t) ∧
((∀ v, v ≠ [] → dquote ∉ v →
       ¬ occurs (s "book id=" ++ [dquote] ++ v ++ [dquote]) t) →
 ∀ inp out w,
   read_file (files w) inp = Content t →
   verify inp out w =
     (World (files w) (console w ++ [MsgVerifyStart; MsgNoBookIds]), Ok ()) ∧
   ∀ root fs',
     ET_parse (files w) inp = Ok root →
     distinct_children root →
     ET_write (files w) (reordered root) out = (fs', None) →
     sort inp out w = (World fs' (console w ++ [MsgSorted inp out]), Ok true)).
Proof.
assert (findall_book_ids t = [] ↔
        ∀ v, v ≠ [] → dquote ∉ v →
             ¬ occurs (s "book id=" ++ [dquote] ++ v ++ [dquote]) t) as Hnil.
{ rewrite findall_book_ids_nil. split.
  - intros Hno v Hv Hq Hocc. by apply (Hno v), book_id_at_literal.
  - intros Hno v (Hv & Hq & Hocc)%book_id_at_literal. by apply (Hno v). }
split.
{ intros v Hv. by apply book_id_at_literal, findall_book_ids_sound. }
split; [exact Hnil|].
intros Hno inp out w Hin. split.
- rewrite verify_run, Hin. simpl.
  rewrite decide_True; [done|]. by apply Hnil.
- intros root fs' Hp Hnd Hw.
  unfold reordered in Hw.
  rewrite sort_run, Hp, reorder_ok by done. by rewrite Hw.
Qed.

End program_facts.

(** ** Runs on the small file system *)

Abbreviation demo_sort :=
  (sort_library_by_path DemoIO.ET_parse DemoIO.ET_write).
Abbreviation demo_verify := (verify_book_ids DemoIO.read_file).

(** Scenario B: [x] twice in the input. *)
Example verify_twice :
  demo_verify DemoIO.input DemoIO.output (World DemoIO.fs_twice []) =
    (World DemoIO.fs_twice
       [MsgVerifyStart;
        MsgDuplicateWarning DemoIO.input; MsgDuplicateHeader;
        MsgDuplicateItem (s "x") 2;
        MsgFoundUnique 2 DemoIO.input;
        MsgVerifySuccess 2 DemoIO.output],
     Ok ()).
Proof. vm_compute. reflexivity. Qed.

(** A book that is not in the output is listed. *)
Example verify_lost :
  demo_verify DemoIO.input DemoIO.output (World DemoIO.fs_lost []) =
    (World DemoIO.fs_lost
       [MsgVerifyStart;
        MsgFoundUnique 3 DemoIO.input;
        MsgVerifyFailed 1; MsgMissingHeader; MsgMissingItem (s "a")],
     Ok ()).
Proof. vm_compute. reflexivity. Qed.

(** Scenario E: the output is gone when the verifier runs. *)
Example verify_output_gone :
  demo_verify DemoIO.input DemoIO.output DemoIO.start =
    (World DemoIO.fs0
       [MsgVerifyStart;
        MsgFoundUnique 3 DemoIO.input;
        MsgVerifyFileNotFound DemoIO.output],
     Ok ()).
Proof. vm_compute. reflexivity. Qed.

(** The pattern wants [id] right after the tag name, and a value. *)
Example findall_path_first :
  findall_book_ids (s "<book path=" ++ DemoIO.q "q" ++ s " id=" ++ DemoIO.q "x" ++ s "/>") = [].
Proof. vm_compute. reflexivity. Qed.

Example findall_empty_id :
  findall_book_ids (s "<book id=" ++ [dquote; dquote] ++ s " path=" ++ DemoIO.q "p" ++ s "/>") = [].
Proof. vm_compute. reflexivity. Qed.

Example findall_id_first :
  findall_book_ids (s "<book id=" ++ DemoIO.q "x" ++ s " path=" ++ DemoIO.q "q" ++ s "/>")
  = [s "x"].
Proof. vm_compute. reflexivity. Qed.

Example sort_unmatched :
  (demo_sort DemoIO.input DemoIO.output (World DemoIO.fs_unmatched [])).2 = Ok true.
Proof. vm_compute. reflexivity. Qed.

(** ** The properties on the small file system *)

Lemma sort_failure_writes_nothing_witness :
  demo_sort DemoIO.input DemoIO.output (World DemoIO.fs_empty []) =
    (World DemoIO.fs_empty [MsgInputNotFound DemoIO.input], Ok false) ∧
  demo_sort DemoIO.input DemoIO.output (World DemoIO.fs_broken []) =
    (World DemoIO.fs_broken
       [MsgParseError DemoIO.input (s "syntax error: line 1, column 0")],
     Ok false).
Proof.
  split.
  - apply (proj1 (sort_failure_writes_nothing DemoIO.ET_parse DemoIO.ET_write
                    DemoIO.input DemoIO.output (World DemoIO.fs_empty [])))
      with (f := DemoIO.input).
    vm_compute. reflexivity.
  - apply (proj1 (proj2 (sort_failure_writes_nothing DemoIO.ET_parse
                           DemoIO.ET_write DemoIO.input DemoIO.output
                           (World DemoIO.fs_broken [])))).
    vm_compute. reflexivity.
Defined.

Lemma verify_reports_missing_ids_witness :
  DemoIO.read_file DemoIO.fs_lost DemoIO.input = Content DemoIO.library_xml ∧
  findall_book_ids DemoIO.library_xml ≠ [] ∧
  ∃ oc earlier missing,
    DemoIO.read_file DemoIO.fs_lost DemoIO.output = Content oc ∧
    demo_verify DemoIO.input DemoIO.output (World DemoIO.fs_lost []) =
      (World DemoIO.fs_lost
         ([] ++ earlier ++
            if decide (missing = [])
            then [MsgVerifySuccess
                    (size (list_to_set (findall_book_ids DemoIO.library_xml)
                           : gset str)) DemoIO.output]
            else MsgVerifyFailed (length missing) :: MsgMissingHeader
                 :: (MsgMissingItem <$> missing)),
       Ok ()) ∧
    (∀ m, m ∈ earlier → is_verdict m = false) ∧
    NoDup missing ∧
    (∀ v, v ∈ missing ↔
          v ∈ findall_book_ids DemoIO.library_xml ∧
          ¬ occurs (s "id=" ++ [dquote] ++ v ++ [dquote]) oc) ∧
    (missing = [] ↔
     ∀ v, v ∈ findall_book_ids DemoIO.library_xml →
          occurs (s "id=" ++ [dquote] ++ v ++ [dquote]) oc).
Proof.
  assert (DemoIO.read_file DemoIO.fs_lost DemoIO.input
          = Content DemoIO.library_xml) as Hin by (vm_compute; reflexivity).
  assert (findall_book_ids DemoIO.library_xml ≠ []) as Hids
    by (vm_compute; discriminate).
  split; [exact Hin|]. split; [exact Hids|].
  eexists.
  destruct (verify_reports_missing_ids DemoIO.read_file DemoIO.input
              DemoIO.output (World DemoIO.fs_lost []) DemoIO.library_xml _
              Hin eq_refl Hids) as (earlier & missing & H).
  exists earlier, missing. split; [reflexivity|exact H].
Defined.

Lemma verify_duplicate_warning_witness :
  DemoIO.read_file DemoIO.fs_twice DemoIO.input = Content DemoIO.twice_xml ∧
  ∃ printed,
    demo_verify DemoIO.input DemoIO.output (World DemoIO.fs_twice []) =
      (World DemoIO.fs_twice ([] ++ printed), Ok ()) ∧
    (MsgDuplicateWarning DemoIO.input ∈ printed ↔
     size (list_to_set (findall_book_ids DemoIO.twice_xml) : gset str)
       < length (findall_book_ids DemoIO.twice_xml)).
Proof.
  assert (DemoIO.read_file DemoIO.fs_twice DemoIO.input
          = Content DemoIO.twice_xml) as Hin by (vm_compute; reflexivity).
  split; [exact Hin|].
  destruct (verify_duplicate_warning DemoIO.read_file DemoIO.input
              DemoIO.output (World DemoIO.fs_twice []) DemoIO.twice_xml Hin)
    as (printed & Hrun & Hiff & _).
  exists printed. split; [exact Hrun|exact Hiff].
Defined.



Lemma extraction_needs_book_id_first_witness :
  findall_book_ids DemoIO.unmatched_xml = [] ∧
  demo_verify DemoIO.input DemoIO.output (World DemoIO.fs_unmatched []) =
    (World DemoIO.fs_unmatched ([] ++ [MsgVerifyStart; MsgNoBookIds]), Ok ()) ∧
  demo_sort DemoIO.input DemoIO.output (World DemoIO.fs_unmatched []) =
    (World (DemoIO.ET_write DemoIO.fs_unmatched (reordered DemoIO.unmatched)
              DemoIO.output).1
       ([] ++ [MsgSorted DemoIO.input DemoIO.output]),
     Ok true).
Proof.
  assert (findall_book_ids DemoIO.unmatched_xml = []) as Hnil
    by (vm_compute; reflexivity).
  destruct (extraction_needs_book_id_first DemoIO.ET_parse DemoIO.ET_write
              DemoIO.read_file DemoIO.unmatched_xml) as (_ & Hiff & Hrun).
  destruct (Hrun (proj1 Hiff Hnil) DemoIO.input DemoIO.output
              (World DemoIO.fs_unmatched [])) as [Hv Hs].
  { vm_compute. reflexivity. }
  split; [exact Hnil|]. split; [exact Hv|].
  apply (Hs DemoIO.unmatched); [vm_compute; reflexivity
                               |exact DemoIO.unmatched_distinct|reflexivity].
Defined.

(** ** A path that holds the text of the pattern *)

Module DemoTricky.
(** One book, written with its [path] before its [id]; the value of the
    path is the fixed text of the pattern without the quote. *)
Definition catalog : Element :=
  {| eid := 0; tag := s "library"; attrib := ∅; text := None; tail := None;
     children :=
       [Demo.element 1 "book" [("path", "book id="); ("id", "x")]%string] |}.

(** The text of [catalog]. *)
Definition catalog_xml : str :=
  s "<library><book path=" ++ DemoIO.q "book id=" ++ s " id=" ++ DemoIO.q "x"
  ++ s "/></library>".

(** A stand-in for the parser that knows [catalog_xml]. *)
Definition ET_parse (fs : DemoIO.FS) (path : str) : result Element :=
  match fs !! path with
  | None => Raise (FileNotFoundError path)
  | Some c =>
      if decide (c = catalog_xml) then Ok catalog
      else Raise (ParseError (s "syntax error: line 1, column 0"))
  end.

(** Only the input file exists. *)
Definition fs : DemoIO.FS := {[ DemoIO.input := catalog_xml ]}.
End DemoTricky.

(** C10 as stated fails: the input consists of one book that has its
    [path] before its [id], and yet an id is extracted, from the end of
    the path value up to the quote that opens the id, so the verifier
    prints no warning and goes on. *)
Lemma id_extracted_from_path_value :
  DemoTricky.ET_parse DemoTricky.fs DemoIO.input = Ok DemoTricky.catalog ∧
  DemoIO.read_file DemoTricky.fs DemoIO.input
    = Content DemoTricky.catalog_xml ∧
  findall_book_ids DemoTricky.catalog_xml = [s " id="] ∧
  ∃ printed,
    verify_book_ids DemoIO.read_file DemoIO.input DemoIO.output
      (World DemoTricky.fs []) =
      (World DemoTricky.fs printed, Ok ()) ∧
    printed = [MsgVerifyStart; MsgFoundUnique 1 DemoIO.input;
               MsgVerifyFileNotFound DemoIO.output] ∧
    MsgNoBookIds ∉ printed.
Proof.
  split; [vm_compute; reflexivity|].
  split; [vm_compute; reflexivity|].
  split; [vm_compute; reflexivity|].
  eexists. split; [vm_compute; reflexivity|]. split; [done|].
  rewrite !elem_of_cons. intros [|[|[|?%elem_of_nil]]]; done.
Qed.

(** * Further properties of the sorter *)

(** ** Sorting what is sorted *)

Lemma insert_by_head {A} (key : A → str) (x : A) (l : list A) :
  Forall (key_le key x) l → insert_by key x l = x :: l.
Proof.
  destruct l as [|y l]; [done|]. intros [Hxy _]%Forall_cons. simpl.
  unfold key_le, str_le, str_leb in Hxy. apply negb_true_iff in Hxy.
  by rewrite Hxy.
Qed.

Lemma sorted_fixed {A} (key : A → str) (l : list A) :
  StronglySorted (key_le key) l → sorted key l = l.
Proof.
  induction 1 as [|x l Hl IH Hx]; simpl; [done|].
  rewrite IH. by apply insert_by_head.
Qed.

Lemma set_children_same (root : Element) :
  set_children root (children root) = root.
Proof. by destruct root. Qed.

Lemma reordered_perm (root : Element) :
  children (reordered root) ≡ₚ children root.
Proof.
  unfold reordered, others, findall. simpl. rewrite sorted_perm.
  rewrite (comm (++)). apply filter_app_complement.
Qed.

Lemma reordered_distinct (root : Element) :
  distinct_children root → distinct_children (reordered root).
Proof. unfold distinct_children. by rewrite reordered_perm. Qed.

Lemma reorder_fixed (root : Element) :
  distinct_children root →
  children root = others book root ++ findall book root →
  StronglySorted (key_le path_key) (findall book root) →
  reorder root = Ok root.
Proof.
  intros Hnd Hch Hs. rewrite reorder_ok by done.
  by rewrite sorted_fixed, <-Hch, set_children_same.
Qed.

(** X1. A catalog that is already in the written form, the books after
    the other children and in key order, is written back as it is. *)
Theorem reorder_already_sorted (root : Element) :
  distinct_children root →
  children root = others book root ++ findall book root →
  StronglySorted (key_le path_key) (findall book root) →
  reorder root = Ok root.
Proof. apply reorder_fixed. Qed.

(** X2. Sorting is idempotent: the sorter applied to the tree it wrote
    succeeds and gives that same tree. *)
Theorem reorder_idempotent (root : Element) :
  distinct_children root →
  ∃ root', reorder root = Ok root' ∧ reorder root' = Ok root'.
Proof.
  intros Hnd. exists (reordered root). split; [by apply reorder_ok|].
  apply reorder_fixed.
  - by apply reordered_distinct.
  - by rewrite others_reordered, findall_reordered.
  - rewrite findall_reordered. apply sorted_sorted.
Qed.

(** X3. A root without book children is left as it is, whatever its
    children are. *)
Theorem reorder_no_books (root : Element) :
  findall book root = [] → reorder root = Ok root.
Proof.
  intros Hnone. unfold reorder. by rewrite Hnone.
Qed.



(** * Further properties of the verifier *)

(** ** The extraction *)

(** X6. A match at the start of the text gives the first id, and the scan
    goes on behind the closing quote: matches do not overlap. *)
Theorem findall_book_ids_head (v rest : str) :
  v ≠ [] → dquote ∉ v →
  findall_book_ids (book_id_prefix ++ v ++ dquote :: rest)
  = v :: findall_book_ids rest.
Proof.
  intros Hv Hq. rewrite findall_book_ids_unfold.
  assert (match_book_id (book_id_prefix ++ v ++ dquote :: rest) = Some (v, rest))
    as -> by (by apply match_book_id_spec).
  done.
Qed.

Lemma findall_scan_length (n : nat) (t : str) :
  11 * length (findall_scan n t) ≤ length t.
Proof.
  revert t. induction n as [|n IH]; intros t; simpl; [lia|].
  destruct (match_book_id t) as [[v r]|] eqn:Hm.
  - apply match_book_id_spec in Hm as (-> & Hv & _).
    specialize (IH r). rewrite !length_app. simpl.
    destruct v; [done|]. simpl. lia.
  - destruct t as [|c t]; simpl; [lia|]. specialize (IH t). lia.
Qed.

(** X7. Every extracted id uses up at least eleven characters of the
    input: the nine of the fixed text, one of the value and the closing
    quote.  A text of fewer than eleven characters gives no id. *)
Theorem findall_book_ids_length (t : str) :
  11 * length (findall_book_ids t) ≤ length t.
Proof. apply findall_scan_length. Qed.

(** The search pattern of an id is inside every place the id was
    extracted from. *)
Lemma search_pattern_in_match (v t : str) :
  occurs (book_id_prefix ++ v ++ [dquote]) t → occurs (search_pattern v) t.
Proof.
  intros (a & b & ->). exists (a ++ s "book "), b.
  unfold search_pattern.
  change book_id_prefix with (s "book " ++ (s "id=" ++ [dquote])).
  by rewrite <-!app_assoc.
Qed.

Lemma occurs_trans (x y z : str) : occurs x y → occurs y z → occurs x z.
Proof.
  intros (a & b & ->) (c & d & ->). exists (c ++ a), (b ++ d).
  by rewrite <-!app_assoc.
Qed.

(** ** Counting *)

Lemma occurrences_cons (x y : str) (l : list str) :
  occurrences x (y :: l) = (if decide (y = x) then 1 else 0) + occurrences x l.
Proof. unfold occurrences. rewrite filter_cons. by case_decide. Qed.

Lemma occurrences_pos (x : str) (l : list str) : x ∈ l ↔ 0 < occurrences x l.
Proof.
  induction l as [|y l IH].
  - split; [by intros ?%elem_of_nil|]. unfold occurrences. simpl. lia.
  - rewrite elem_of_cons, occurrences_cons, IH.
    case_decide; [split; [lia|by left]|]. split; [|right; lia].
    intros [?|?]; [congruence|lia].
Qed.

Lemma size_list_to_set_repeated (l : list str) :
  size (list_to_set l : gset str) ≤ length l ∧
  (size (list_to_set l : gset str) < length l ↔ ∃ x, 1 < occurrences x l).
Proof.
  induction l as [|y l [IHle IH]].
  - rewrite list_to_set_nil, size_empty. simpl. split; [lia|].
    split; [lia|]. intros [x Hx]. unfold occurrences in Hx. simpl in Hx. lia.
  - rewrite list_to_set_cons. simpl length. destruct (decide (y ∈ l)) as [Hy|Hy].
    + assert ({[y]} ∪ list_to_set l = (list_to_set l : gset str)) as ->
        by set_solver.
      split; [lia|]. split; [|lia]. intros _. exists y.
      rewrite occurrences_cons, decide_True by done.
      apply occurrences_pos in Hy. lia.
    + rewrite size_union, size_singleton by set_solver.
      split; [lia|]. rewrite <-Nat.succ_lt_mono, IH.
      split; intros [x Hx]; exists x; rewrite occurrences_cons in *.
      * lia.
      * case_decide; [|lia]. subst.
        assert (occurrences x l = 0); [|lia].
        destruct (occurrences x l) eqn:Ho; [done|].
        exfalso. apply Hy, occurrences_pos. lia.
Qed.

(** X8. The duplicate test of line 93 holds exactly when some id was
    extracted more than once, and exactly then the listing of lines 96 to
    99 has at least one line: the warning never comes with an empty
    list. *)
Theorem duplicate_test_iff_repeated (ids : list str) :
  (size (list_to_set ids : gset str) < length ids ↔
   ∃ x, 1 < occurrences x ids) ∧
  (size (list_to_set ids : gset str) < length ids ↔
   duplicates_of (Counter ids) ≠ []).
Proof.
  destruct (size_list_to_set_repeated ids) as [_ Hiff].
  destruct (duplicates_of_Counter ids) as [_ Hd].
  split; [done|]. rewrite Hiff. split.
  - intros [x Hx] Hnil.
    assert ((x, occurrences x ids) ∈ duplicates_of (Counter ids)) as Hin
      by by apply Hd.
    rewrite Hnil in Hin. by apply elem_of_nil in Hin.
  - destruct (duplicates_of (Counter ids)) as [|[x n] d]; [done|].
    intros _. exists x. destruct (proj1 (Hd x n)) as [-> ?]; [left|done].
Qed.

(** * Further properties of the two operations and of the script *)

Section program_more.
Context {FS : Type}.
Variable ET_parse : FS → str → result Element.
Variable ET_write : FS → Element → str → FS * option exn.
Variable read_file : FS → str → read_outcome.

#[local] Abbreviation sort' := (sort_library_by_path ET_parse ET_write).
#[local] Abbreviation verify' := (verify_book_ids read_file).
#[local] Abbreviation main' := (main ET_parse ET_write read_file).

Lemma sort_run_written (inp out : str) (w : world) (root : Element) (fs' : FS) :
  ET_parse (files w) inp = Ok root →
  distinct_children root →
  ET_write (files w) (reordered root) out = (fs', None) →
  sort' inp out w = (World fs' (console w ++ [MsgSorted inp out]), Ok true).
Proof.
  intros Hp Hnd Hw. unfold reordered in Hw.
  rewrite sort_run, Hp, reorder_ok by done. by rewrite Hw.
Qed.

(** X9. The success path: on a parsed catalog whose write goes through,
    the sorter writes the reordered tree, prints the success message and
    returns [True]; removing the books never fails. *)
Theorem sort_success (inp out : str) (w : world) (root : Element) (fs' : FS) :
  ET_parse (files w) inp = Ok root →
  distinct_children root →
  ET_write (files w) (reordered root) out = (fs', None) →
  sort' inp out w = (World fs' (console w ++ [MsgSorted inp out]), Ok true).
Proof. apply sort_run_written. Qed.

(** X10. Any other exception of the parse, one that is neither
    [FileNotFoundError] nor [ParseError], gives the generic message with
    the text of the exception, [False], and an untouched file system. *)
Theorem sort_unexpected_parse_error (inp out : str) (w : world) (e : exn) :
  ET_parse (files w) inp = Raise e →
  (∀ f, e ≠ FileNotFoundError f) →
  (∀ m, e ≠ ParseError m) →
  sort' inp out w =
    (World (files w) (console w ++ [MsgSortUnexpected (exn_text e)]), Ok false).
Proof.
  intros Hp Hf Hm. rewrite sort_run, Hp.
  destruct e as [f|m| |]; [by destruct (Hf f)|by destruct (Hm m)|done..].
Qed.

(** X11. A failing write: the sorter returns [False] and the file system
    is as the write left it.  A [FileNotFoundError] of the write, as for
    an output path in a directory that does not exist, is reported with
    the message about the input file; other exceptions with the generic
    message. *)
Theorem sort_write_failure (inp out : str) (w : world) (root : Element)
    (fs' : FS) (e : exn) :
  ET_parse (files w) inp = Ok root →
  distinct_children root →
  ET_write (files w) (reordered root) out = (fs', Some e) →
  ∃ m,
    sort' inp out w = (World fs' (console w ++ [m]), Ok false) ∧
    (∀ f, e = FileNotFoundError f → m = MsgInputNotFound inp) ∧
    (∀ t, e = OtherError t → m = MsgSortUnexpected t).
Proof.
  intros Hp Hnd Hw. unfold reordered in Hw. exists (sort_error inp e).
  split; [|by split; intros ? ->].
  rewrite sort_run, Hp, reorder_ok by done. by rewrite Hw.
Qed.

(** X12. The script does not verify after a failed sort: when the parse
    of [library.xml] raises, the only message is the one of the sorter,
    the file system is untouched and the script ends normally. *)
Theorem main_stops_after_failed_sort (w : world) (e : exn) :
  ET_parse (files w) (s "library.xml") = Raise e →
  ∃ m,
    main' w = (World (files w) (console w ++ [m]), Ok ()) ∧
    m = sort_error (s "library.xml") e ∧
    m ≠ MsgVerifyStart.
Proof.
  intros Hp. exists (sort_error (s "library.xml") e).
  split; [|split; [done|by destruct e]].
  unfold main, mbind, io_bind. by rewrite sort_run, Hp.
Qed.

Lemma main_run_written (w : world) (root : Element) (fs' : FS) :
  ET_parse (files w) (s "library.xml") = Ok root →
  distinct_children root →
  ET_write (files w) (reordered root) (s "library_sorted.xml") = (fs', None) →
  main' w =
    verify' (s "library.xml") (s "library_sorted.xml")
      (World fs'
         (console w ++ [MsgSorted (s "library.xml") (s "library_sorted.xml")])).
Proof.
  intros Hp Hnd Hw. unfold main, mbind, io_bind.
  by rewrite (sort_run_written _ _ _ root fs').
Qed.

(** X13. The script on the success path: after the sorter wrote the
    reordered tree, the verifier runs on the file system the write left,
    and the console holds the success message of the sorter followed by
    what the verifier prints. *)
Theorem main_verifies_after_sort (w : world) (root : Element) (fs' : FS) :
  ET_parse (files w) (s "library.xml") = Ok root →
  distinct_children root →
  ET_write (files w) (reordered root) (s "library_sorted.xml") = (fs', None) →
  main' w =
    verify' (s "library.xml") (s "library_sorted.xml")
      (World fs'
         (console w ++ [MsgSorted (s "library.xml") (s "library_sorted.xml")])).
Proof. apply main_run_written. Qed.

(** X14. An output that contains the input text passes: with both files
    readable and an id extracted, if the input text is a part of the
    output text, in particular when a file is verified against itself,
    the verifier ends with the success message. *)
Theorem verify_output_contains_input (inp out : str) (w : world) (ic oc : str) :
  read_file (files w) inp = Content ic →
  read_file (files w) out = Content oc →
  findall_book_ids ic ≠ [] →
  occurs ic oc →
  ∃ earlier,
    verify' inp out w =
      (World (files w)
         (console w ++ earlier ++
            [MsgVerifySuccess
               (size (list_to_set (findall_book_ids ic) : gset str)) out]),
       Ok ()) ∧
    ∀ m, m ∈ earlier → is_verdict m = false.
Proof.
  intros Hin Hout Hids Hocc.
  exists (MsgVerifyStart :: duplicate_report inp (findall_book_ids ic)
            ++ [MsgFoundUnique
                  (size (list_to_set (findall_book_ids ic) : gset str)) inp]).
  split.
  - rewrite verify_run, Hin, Hout. simpl. rewrite decide_False by done.
    unfold verdict. rewrite decide_True.
    + f_equal. f_equal. f_equal. simpl. f_equal. by rewrite <-app_assoc.
    + apply missing_ids_nil. intros v Hv.
      apply findall_book_ids_sound in Hv as (_ & _ & Hv).
      eapply occurs_trans; [by apply search_pattern_in_match|done].
  - intros m. rewrite elem_of_cons, elem_of_app, list_elem_of_singleton.
    intros [->|[Hd| ->]]; [done| |done].
    apply duplicate_report_is_duplicate in Hd. by destruct m.
Qed.

(** X15. The script end to end: when the parse and the write go through
    and the written file, read back, has the search pattern of every id
    extracted from the input, the console gets the success message of the
    sorter, then the messages of the verifier, the last of which is its
    success message. *)
Theorem main_end_to_end (w : world) (root : Element) (fs' : FS) (ic oc : str) :
  ET_parse (files w) (s "library.xml") = Ok root →
  distinct_children root →
  ET_write (files w) (reordered root) (s "library_sorted.xml") = (fs', None) →
  read_file fs' (s "library.xml") = Content ic →
  read_file fs' (s "library_sorted.xml") = Content oc →
  findall_book_ids ic ≠ [] →
  (∀ v, v ∈ findall_book_ids ic → occurs (search_pattern v) oc) →
  ∃ earlier,
    main' w =
      (World fs'
         (console w
          ++ MsgSorted (s "library.xml") (s "library_sorted.xml")
             :: MsgVerifyStart :: earlier
          ++ [MsgVerifySuccess
                (size (list_to_set (findall_book_ids ic) : gset str))
                (s "library_sorted.xml")]),
       Ok ()) ∧
    ∀ m, m ∈ earlier → is_verdict m = false.
Proof.
  intros Hp Hnd Hw Hin Hout Hids Hall.
  exists (duplicate_report (s "library.xml") (findall_book_ids ic)
            ++ [MsgFoundUnique
                  (size (list_to_set (findall_book_ids ic) : gset str))
                  (s "library.xml")]).
  split.
  - rewrite (main_run_written w root fs') by done.
    rewrite verify_run. cbn [files console]. rewrite Hin, Hout.
    cbn zeta. rewrite decide_False by done.
    unfold verdict. rewrite decide_True by (by apply missing_ids_nil).
    f_equal. f_equal. by rewrite <-!app_assoc.
  - intros m. rewrite elem_of_app, list_elem_of_singleton.
    intros [Hd| ->]; [|done].
    apply duplicate_report_is_duplicate in Hd. by destruct m.
Qed.

End program_more.

(** ** The further properties on the small catalog and file system *)

Module DemoMore.
(** [Demo.library] as the sorter writes it. *)
Definition sorted_library : Element :=
  set_children Demo.library
    [Demo.note; Demo.book_c; Demo.book_a; Demo.book_d; Demo.book_b].

(** A root with no book. *)
Definition notes_only : Element :=
  set_children Demo.library [Demo.note].


(** A parse that fails for a reason of its own. *)
Definition ET_parse_denied (fs : DemoIO.FS) (path : str) : result Element :=
  Raise (OtherError (s "[Errno 13] Permission denied")).

(** A write into a directory that does not exist. *)
Definition ET_write_nodir (fs : DemoIO.FS) (root : Element) (path : str)
    : DemoIO.FS * option exn :=
  (fs, Some (FileNotFoundError path)).
End DemoMore.

Lemma sorted_library_distinct : distinct_children DemoMore.sorted_library.
Proof.
  unfold distinct_children. simpl. apply NoDup_ListNoDup.
  repeat constructor; simpl; intuition lia.
Defined.


Lemma reorder_already_sorted_witness :
  distinct_children DemoMore.sorted_library ∧
  reorder DemoMore.sorted_library = Ok DemoMore.sorted_library.
Proof.
  split; [exact sorted_library_distinct|].
  apply reorder_already_sorted.
  - exact sorted_library_distinct.
  - vm_compute. reflexivity.
  - replace (findall book DemoMore.sorted_library)
      with (sorted path_key (findall book Demo.library))
      by (vm_compute; reflexivity).
    apply sorted_sorted.
Defined.

Lemma reorder_idempotent_witness :
  distinct_children Demo.library ∧
  ∃ root', reorder Demo.library = Ok root' ∧ reorder root' = Ok root'.
Proof.
  split; [exact Demo.library_distinct|].
  exact (reorder_idempotent Demo.library Demo.library_distinct).
Defined.

Lemma reorder_no_books_witness :
  findall book DemoMore.notes_only = [] ∧
  reorder DemoMore.notes_only = Ok DemoMore.notes_only.
Proof.
  assert (findall book DemoMore.notes_only = []) as Hnone
    by (vm_compute; reflexivity).
  split; [exact Hnone|]. exact (reorder_no_books _ Hnone).
Defined.



Lemma findall_book_ids_head_witness :
  findall_book_ids (book_id_prefix ++ s "x" ++ dquote :: s "/>")
  = s "x" :: findall_book_ids (s "/>").
Proof.
  apply findall_book_ids_head; [done|].
  change (34%N ∉ [120%N]). rewrite list_elem_of_singleton. lia.
Defined.

Lemma sort_success_witness :
  sort_library_by_path DemoIO.ET_parse DemoIO.ET_write DemoIO.input
    DemoIO.output DemoIO.start =
  (World DemoIO.fs_sorted ([] ++ [MsgSorted DemoIO.input DemoIO.output]),
   Ok true).
Proof.
  apply (sort_success DemoIO.ET_parse DemoIO.ET_write DemoIO.input
           DemoIO.output DemoIO.start Demo.library DemoIO.fs_sorted).
  - vm_compute. reflexivity.
  - exact Demo.library_distinct.
  - reflexivity.
Defined.

Lemma sort_unexpected_parse_error_witness :
  sort_library_by_path DemoMore.ET_parse_denied DemoIO.ET_write DemoIO.input
    DemoIO.output DemoIO.start =
  (World DemoIO.fs0
     ([] ++ [MsgSortUnexpected (s "[Errno 13] Permission denied")]),
   Ok false).
Proof.
  apply (sort_unexpected_parse_error DemoMore.ET_parse_denied DemoIO.ET_write
           DemoIO.input DemoIO.output DemoIO.start
           (OtherError (s "[Errno 13] Permission denied"))); done.
Defined.

Lemma sort_write_failure_witness :
  ∃ m,
    sort_library_by_path DemoIO.ET_parse DemoMore.ET_write_nodir DemoIO.input
      DemoIO.output DemoIO.start =
    (World DemoIO.fs0 ([] ++ [m]), Ok false) ∧
    m = MsgInputNotFound DemoIO.input.
Proof.
  destruct (sort_write_failure DemoIO.ET_parse DemoMore.ET_write_nodir
              DemoIO.input DemoIO.output DemoIO.start Demo.library DemoIO.fs0
              (FileNotFoundError DemoIO.output))
    as (m & Hrun & Hnf & _).
  - vm_compute. reflexivity.
  - exact Demo.library_distinct.
  - reflexivity.
  - exists m. split; [exact Hrun|]. by apply (Hnf DemoIO.output).
Defined.

Lemma main_stops_after_failed_sort_witness :
  ∃ m,
    main DemoIO.ET_parse DemoIO.ET_write DemoIO.read_file
      (World DemoIO.fs_empty []) =
    (World DemoIO.fs_empty ([] ++ [m]), Ok ()) ∧
    m = MsgInputNotFound DemoIO.input.
Proof.
  destruct (main_stops_after_failed_sort DemoIO.ET_parse DemoIO.ET_write
              DemoIO.read_file (World DemoIO.fs_empty [])
              (FileNotFoundError DemoIO.input))
    as (m & Hrun & -> & _).
  - vm_compute. reflexivity.
  - eexists. split; [exact Hrun|reflexivity].
Defined.

Lemma main_verifies_after_sort_witness :
  main DemoIO.ET_parse DemoIO.ET_write DemoIO.read_file DemoIO.start =
  verify_book_ids DemoIO.read_file DemoIO.input DemoIO.output
    (World DemoIO.fs_sorted ([] ++ [MsgSorted DemoIO.input DemoIO.output])).
Proof.
  apply (main_verifies_after_sort DemoIO.ET_parse DemoIO.ET_write
           DemoIO.read_file DemoIO.start Demo.library DemoIO.fs_sorted).
  - vm_compute. reflexivity.
  - exact Demo.library_distinct.
  - reflexivity.
Defined.

Lemma verify_output_contains_input_witness :
  occurs DemoIO.twice_xml DemoIO.twice_xml ∧
  ∃ earlier,
    verify_book_ids DemoIO.read_file DemoIO.input DemoIO.output
      (World DemoIO.fs_twice []) =
    (World DemoIO.fs_twice
       ([] ++ earlier ++
          [MsgVerifySuccess
             (size (list_to_set (findall_book_ids DemoIO.twice_xml) : gset str))
             DemoIO.output]),
     Ok ()) ∧
    ∀ m, m ∈ earlier → is_verdict m = false.
Proof.
  assert (occurs DemoIO.twice_xml DemoIO.twice_xml) as Hocc
    by (exists [], []; by rewrite app_nil_r).
  split; [exact Hocc|].
  apply (verify_output_contains_input DemoIO.read_file DemoIO.input
           DemoIO.output (World DemoIO.fs_twice []) DemoIO.twice_xml
           DemoIO.twice_xml).
  - vm_compute. reflexivity.
  - vm_compute. reflexivity.
  - vm_compute. discriminate.
  - exact Hocc.
Defined.

Lemma main_end_to_end_witness :
  ∃ earlier,
    main DemoIO.ET_parse DemoIO.ET_write DemoIO.read_file DemoIO.start =
    (World DemoIO.fs_sorted
       ([] ++ MsgSorted DemoIO.input DemoIO.output :: MsgVerifyStart :: earlier
        ++ [MsgVerifySuccess
              (size (list_to_set (findall_book_ids DemoIO.library_xml)
                     : gset str))
              DemoIO.output]),
     Ok ()) ∧
    ∀ m, m ∈ earlier → is_verdict m = false.
Proof.
  apply (main_end_to_end DemoIO.ET_parse DemoIO.ET_write DemoIO.read_file
           DemoIO.start Demo.library DemoIO.fs_sorted DemoIO.library_xml
           (DemoIO.to_xml (reordered Demo.library))).
  - vm_compute. reflexivity.
  - exact Demo.library_distinct.
  - reflexivity.
  - vm_compute. reflexivity.
  - vm_compute. reflexivity.
  - vm_compute. discriminate.
  - apply missing_ids_nil. vm_compute. reflexivity.
Defined.
